(** * postgres-migrations-oasis: the migration reconciliation engine

    A shallow embedding of [src/migrate.ts] and [src/files-loader.ts]:
    the set loader, the ledger reader, the reconciler
    ([validateMigrations], [filterMigrations]) and the orchestrator
    ([migrate], [runMigrations]), with the database session, the file
    system, the caller's heap and the logger sink as explicit state. *)

From Stdlib Require Import ZArith Ascii String List Bool Lia.
From stdpp Require Import base option list sorting strings pretty gmap fin_maps.

Local Open Scope Z_scope.
Local Open Scope string_scope.

(** ** JavaScript values, strings and errors *)

(** Strings are sequences of code units below 256. *)
Definition nl : string := String "010"%char EmptyString.
Definition dquote : string := String "034"%char EmptyString.

(** [`${array}`]: [Array.prototype.toString] joins with a comma. *)
Fixpoint js_join (l : list string) : string :=
  match l with
  | [] => EmptyString
  | [x] => x
  | x :: rest => x +:+ "," +:+ js_join rest
  end.

(** [new Error(message)], optionally with [error.cause = err]. *)
Inductive JsError : Type :=
| Error (message : string)
| ErrorWithCause (message : string) (cause : JsError).

Definition message (e : JsError) : string :=
  match e with Error m | ErrorWithCause m _ => m end.

Definition cause (e : JsError) : option JsError :=
  match e with Error _ => None | ErrorWithCause _ c => Some c end.

Definition Result (A : Type) : Type := (JsError + A)%type.

(** ** Data model (types.ts is consumed through these fields only) *)

Module Migration.
Record t : Type := mk {
  id : Z;
  name : string;
  fileName : string;
  hash : string;
  sql : string;
}.
End Migration.

Module Row.
Record t : Type := mk {
  id : Z;
  name : string;
  hash : string;
  executed_at : Z;
}.
End Row.

Abbreviation Migration := Migration.t.
Abbreviation Row := Row.t.

(** ** files-loader.ts: the candidate filter *)

(** The line terminators among the code units below 256. *)
Definition is_line_terminator (c : ascii) : bool :=
  Ascii.eqb c "010" || Ascii.eqb c "013".

(** Canonicalisation of the [i] flag on code units below 256. *)
Definition canonicalize (c : ascii) : ascii :=
  let n := nat_of_ascii c in
  if ((97 <=? n)%nat && (n <=? 122)%nat)%bool then ascii_of_nat (n - 32) else c.

Fixpoint ci_eqb (s p : string) : bool :=
  match s, p with
  | EmptyString, EmptyString => true
  | String a s', String b p' =>
      Ascii.eqb (canonicalize a) (canonicalize b) && ci_eqb s' p'
  | _, _ => false
  end.

(** The pattern [.(sql|js)$] matched at the head of [s]: one code unit
    that is no line terminator, then one of the alternatives up to the end
    of the input. *)
Definition match_here (s : string) : bool :=
  match s with
  | EmptyString => false
  | String c rest =>
      negb (is_line_terminator c) && (ci_eqb rest "sql" || ci_eqb rest "js")
  end.

(** The leftmost match at or after the head of [s]. *)
Fixpoint match_from (s : string) : bool :=
  match s with
  | EmptyString => false
  | String _ rest => match_here s || match_from rest
  end.

Fixpoint string_drop (n : nat) (s : string) : string :=
  match n, s with
  | O, _ => s
  | S n', String _ rest => string_drop n' rest
  | S _, EmptyString => EmptyString
  end.

(** A RegExp object carrying the [g] flag keeps [lastIndex] between
    calls of [test]. *)
Record RegExp : Type := { lastIndex : nat }.

Definition RegExp_test (re : RegExp) (s : string) : bool * RegExp :=
  if (String.length s <? lastIndex re)%nat then (false, {| lastIndex := 0 |})
  else if match_from (string_drop (lastIndex re) s)
       then (true, {| lastIndex := String.length s |})
       else (false, {| lastIndex := 0 |}).

(** [const isValidFile = (fileName) => /.(sql|js)$/gi.test(fileName)]:
    the literal is evaluated at every call of the arrow function, so each
    call tests a fresh RegExp object. *)
Definition isValidFile (fileName : string) : bool :=
  fst (RegExp_test {| lastIndex := 0 |} fileName).

(** ** migrate.ts: the reconciler *)

(** [Array.prototype.find] with the (element, index) callback. *)
Fixpoint js_find_from {A : Type} (p : A → nat → bool) (l : list A) (i : nat)
  : option A :=
  match l with
  | [] => None
  | x :: rest => if p x i then Some x else js_find_from p rest (S i)
  end.

Definition js_find {A : Type} (p : A → nat → bool) (l : list A) : option A :=
  js_find_from p l 0.

Definition indexNotMatch (migration : Migration) (index : nat) : bool :=
  negb (Z.eqb (Migration.id migration) (Z.of_nat index)).

Definition invalidHash (appliedMigrations : gmap Z Row) (migration : Migration)
  : bool :=
  match appliedMigrations !! Migration.id migration with
  | Some appliedMigration =>
      negb (String.eqb (Row.hash appliedMigration) (Migration.hash migration))
  | None => false
  end.

Definition nonConsecutiveIdError (fileName : string) : JsError :=
  Error ("Found a non-consecutive migration ID on file: '" +:+ fileName +:+ "'").

Definition hashMismatchError (invalidFiles : list string) : JsError :=
  Error (nl +:+ "Hashes don't match for migrations '" +:+ js_join invalidFiles
         +:+ "'." +:+ nl
         +:+ "This means that the scripts have changed since it was applied.").

Definition validateMigrations (migrations : list Migration)
    (appliedMigrations : gmap Z Row) : Result unit :=
  match js_find indexNotMatch migrations with
  | Some notMatchingId =>
      inl (nonConsecutiveIdError (Migration.fileName notMatchingId))
  | None =>
      let invalidHashes := List.filter (invalidHash appliedMigrations) migrations in
      if (0 <? List.length invalidHashes)%nat
      then inl (hashMismatchError (List.map Migration.fileName invalidHashes))
      else inr tt
  end.

Definition notAppliedMigration (appliedMigrations : gmap Z Row)
    (migration : Migration) : bool :=
  match appliedMigrations !! Migration.id migration with
  | Some _ => false
  | None => true
  end.

Definition filterMigrations (migrations : list Migration)
    (appliedMigrations : gmap Z Row) : list Migration :=
  List.filter (notAppliedMigration appliedMigrations) migrations.

(** [array.sort((a, b) => a.id - b.id)] and [ORDER BY id]: a stable sort
    on an integer key. *)
Fixpoint insert_by {A : Type} (key : A → Z) (x : A) (l : list A) : list A :=
  match l with
  | [] => [x]
  | y :: rest => if Z.leb (key x) (key y) then x :: l else y :: insert_by key x rest
  end.

Definition sort_by {A : Type} (key : A → Z) (l : list A) : list A :=
  foldr (insert_by key) [] l.

(** ** The world the orchestrator runs in *)

Inductive JsValue : Type :=
| VUndefined
| VNull
| VBool (b : bool)
| VNumber (n : Z)
| VString (s : string)
| VObject (ref : nat).

Abbreviation JsObject := (gmap string JsValue).
Abbreviation Heap := (gmap nat JsObject).

Definition typeof (v : JsValue) : string :=
  match v with
  | VUndefined => "undefined"
  | VNull | VObject _ => "object"
  | VBool _ => "boolean"
  | VNumber _ => "number"
  | VString _ => "string"
  end.

(** [v.field]; none of the fields read here exists on a primitive. *)
Definition get_property (h : Heap) (v : JsValue) (field : string) : JsValue :=
  match v with
  | VObject ref =>
      match h !! ref with
      | Some o => default VUndefined (o !! field)
      | None => VUndefined
      end
  | _ => VUndefined
  end.

(** [ref.field = v] on the shared object. *)
Definition set_property (h : Heap) (ref : nat) (field : string) (v : JsValue)
  : Heap :=
  match h !! ref with
  | Some o => <[ref := <[field := v]> o]> h
  | None => h
  end.

(** The file system behind [fs.readdir] and the unit loader. *)
Record FileSystem : Type := {
  directories : gmap string (list string);
  files : gmap string string;
}.

(** The catalog [pg_catalog.pg_class] joined with the schema name, and the
    rows of each relation (relations with the ledger layout). A relation
    is stored under its exact name: the name a quoted identifier or a
    query parameter spells. *)
Record Relation : Type := {
  relname : string;
  relnamespace : string;
  relkind : ascii;
  relrows : list Row;
}.

(** [select_other] is the server's answer to [SELECT * FROM text] for a
    text that is not read here as the name of an ordinary table (a quoted
    or qualified name, a key word, a view, a join, ...): it is left to
    the server. *)
Record Database : Type := {
  pg_class : list Relation;
  current_schema : string;
  clock : Z;
  select_other : string → Result (list Row);
}.

(** What the session and the executor were asked to do, in order. *)
Inductive Event : Type :=
| ClientConnect
| ClientEnd
| QueryTableExists (tableName : string)
| QuerySelect (tableName : string)
| RunMigration (tableName : string) (migration : Migration).

Definition Logger : Type := string → list string → list string.

Record Config : Type := { logger : option Logger }.

Record World : Type := {
  heap : Heap;
  fs : FileSystem;
  db : Database;
  connectError : option JsError;
  endError : option JsError;
  trace : list Event;
  console : list string;
}.

Definition with_heap (h : Heap) (w : World) : World :=
  {| heap := h; fs := fs w; db := db w; connectError := connectError w;
     endError := endError w; trace := trace w; console := console w |}.

Definition with_db (d : Database) (w : World) : World :=
  {| heap := heap w; fs := fs w; db := d; connectError := connectError w;
     endError := endError w; trace := trace w; console := console w |}.

Definition emit (e : Event) (w : World) : World :=
  {| heap := heap w; fs := fs w; db := db w; connectError := connectError w;
     endError := endError w; trace := (trace w ++ [e])%list; console := console w |}.

Definition with_console (c : list string) (w : World) : World :=
  {| heap := heap w; fs := fs w; db := db w; connectError := connectError w;
     endError := endError w; trace := trace w; console := c |}.

(** ** A state and exception monad for async functions *)

Definition M (A : Type) : Type := World → Result A * World.

Definition ret {A : Type} (a : A) : M A := fun w => (inr a, w).

Definition throw {A : Type} (e : JsError) : M A := fun w => (inl e, w).

Definition bind {A B : Type} (m : M A) (k : A → M B) : M B :=
  fun w =>
    match m w with
    | (inr a, w') => k a w'
    | (inl e, w') => (inl e, w')
    end.

Definition lift {A : Type} (r : Result A) : M A := fun w => (r, w).

Definition try_catch {A : Type} (body : M A) (handler : JsError → M A) : M A :=
  fun w =>
    match body w with
    | (inr a, w') => (inr a, w')
    | (inl e, w') => handler e w'
    end.

Definition try_finally {A : Type} (body : M A) (finalizer : M unit) : M A :=
  fun w =>
    let '(r, w1) := body w in
    match finalizer w1 with
    | (inr _, w2) => (r, w2)
    | (inl e, w2) => (inl e, w2)
    end.

Declare Scope js_scope.
Delimit Scope js_scope with js.
Notation "x <- m ;; k" := (bind m (fun x => k))
  (at level 100, m at next level, right associativity) : js_scope.
Notation "m ;;; k" := (bind m (fun _ => k))
  (at level 100, right associativity) : js_scope.
Local Open Scope js_scope.

(** [await Promise.all(xs.map(f))]; the rejection reported is that of the
    first failing element. *)
Fixpoint promise_all {A B : Type} (f : A → M B) (xs : list A) : M (list B) :=
  match xs with
  | [] => ret []
  | x :: rest => y <- f x ;; ys <- promise_all f rest ;; ret (y :: ys)
  end.

Definition noopLogger : Logger := fun _ c => c.

Definition do_log (log : Logger) (msg : string) : M unit :=
  fun w => (inr tt, with_console (log msg (console w)) w).

(** ** The pg client *)

Definition client_connect : M unit :=
  fun w =>
    match connectError w with
    | Some e => (inl e, emit ClientConnect w)
    | None => (inr tt, emit ClientConnect w)
    end.

Definition client_end : M unit :=
  fun w =>
    match endError w with
    | Some e => (inl e, emit ClientEnd w)
    | None => (inr tt, emit ClientEnd w)
    end.

(** The rows of
    [SELECT EXISTS (SELECT 1 FROM pg_catalog.pg_class c
                    WHERE c.relname = $1 AND c.relkind = 'r')]. *)
Definition select_exists (d : Database) (tableName : string) : list bool :=
  [existsb (fun c => String.eqb (relname c) tableName && Ascii.eqb (relkind c) "r")
           (pg_class d)].

(** The relation an unqualified name resolves to. *)
Definition matches (d : Database) (tableName : string) (c : Relation) : bool :=
  String.eqb (relname c) tableName && String.eqb (relnamespace c) (current_schema d).

Definition resolve (d : Database) (tableName : string) : option Relation :=
  List.find (matches d tableName) (pg_class d).

Definition undefined_table (tableName : string) : JsError :=
  Error ("relation " +:+ dquote +:+ tableName +:+ dquote +:+ " does not exist").

(** *** Names written into the text of a query

    [fetchAppliedMigrationFromDB] interpolates the table name into the
    text of its SELECT without quoting it, so the server reads it as it
    reads any unquoted text. *)

Definition is_upper (c : ascii) : bool :=
  let n := nat_of_ascii c in ((65 <=? n)%nat && (n <=? 90)%nat)%bool.

Definition is_lower (c : ascii) : bool :=
  let n := nat_of_ascii c in ((97 <=? n)%nat && (n <=? 122)%nat)%bool.

Definition is_digit (c : ascii) : bool :=
  let n := nat_of_ascii c in ((48 <=? n)%nat && (n <=? 57)%nat)%bool.

Definition is_word_char (c : ascii) : bool :=
  is_upper c || is_lower c || is_digit c || Ascii.eqb c "_".

Definition to_lower (c : ascii) : ascii :=
  if is_upper c then ascii_of_nat (nat_of_ascii c + 32) else c.

Fixpoint fold_case (s : string) : string :=
  match s with
  | EmptyString => EmptyString
  | String c rest => String (to_lower c) (fold_case rest)
  end.

Fixpoint all_chars (p : ascii → bool) (s : string) : bool :=
  match s with
  | EmptyString => true
  | String c rest => p c && all_chars p rest
  end.

(** The key words of the server that do not name a table when written
    unquoted. *)
Definition reserved_words : list string :=
  ["all"; "analyse"; "analyze"; "and"; "any"; "array"; "as"; "asc";
   "asymmetric"; "authorization"; "binary"; "both"; "case"; "cast"; "check";
   "collate"; "collation"; "column"; "concurrently"; "constraint"; "create";
   "cross"; "current_catalog"; "current_date"; "current_role";
   "current_schema"; "current_time"; "current_timestamp"; "current_user";
   "default"; "deferrable"; "desc"; "distinct"; "do"; "else"; "end"; "except";
   "false"; "fetch"; "for"; "foreign"; "freeze"; "from"; "full"; "grant";
   "group"; "having"; "ilike"; "in"; "initially"; "inner"; "intersect";
   "into"; "is"; "isnull"; "join"; "lateral"; "leading"; "left"; "like";
   "limit"; "localtime"; "localtimestamp"; "natural"; "not"; "notnull";
   "null"; "offset"; "on"; "only"; "or"; "order"; "outer"; "overlaps";
   "placing"; "primary"; "references"; "returning"; "right"; "select";
   "session_user"; "similar"; "some"; "symmetric"; "system_user"; "table";
   "tablesample"; "then"; "to"; "trailing"; "true"; "union"; "unique";
   "user"; "using"; "variadic"; "verbose"; "when"; "where"; "window";
   "with"].

(** A text the server reads, unquoted, as the name of one relation to be
    looked up in the schema of the session: a letter or an underscore
    followed by letters, digits and underscores, at most 63 bytes long,
    no reserved key word and no name of the system catalog ([pg_...]). *)
Definition is_identifier (text : string) : bool :=
  match text with
  | EmptyString => false
  | String c _ =>
      negb (is_digit c) && all_chars is_word_char text
      && (String.length text <=? 63)%nat
      && negb (existsb (String.eqb (fold_case text)) reserved_words)
      && negb (String.prefix "pg_" (fold_case text))
  end.

(** The name an unquoted identifier denotes: the server folds it to lower
    case. *)
Definition unquoted_name (text : string) : option string :=
  if is_identifier text then Some (fold_case text) else None.

(** The rows read by [FROM text]: those of the ordinary table the folded
    identifier resolves to; the error of the server when it resolves to
    nothing; the server's own answer for any other text or relation. *)
Definition from_rows (d : Database) (text : string) : Result (list Row) :=
  match unquoted_name text with
  | Some name =>
      match resolve d name with
      | Some c => if Ascii.eqb (relkind c) "r" then inr (relrows c)
                  else select_other d text
      | None => inl (undefined_table name)
      end
  | None => select_other d text
  end.

(** The rows of [SELECT * FROM tableName ORDER BY id], with the table
    name interpolated unquoted. *)
Definition select_all_order_by_id (d : Database) (tableName : string)
  : Result (list Row) :=
  match from_rows d tableName with
  | inr rows => inr (sort_by Row.id rows)
  | inl e => inl e
  end.

Definition doesTableExist (tableName : string) : M bool :=
  fun w =>
    let rows := select_exists (db w) tableName in
    (inr ((0 <? List.length rows)%nat && default false (head rows)),
     emit (QueryTableExists tableName) w).

Definition query_select (tableName : string) : M (list Row) :=
  fun w => (select_all_order_by_id (db w) tableName,
            emit (QuerySelect tableName) w).

(** ** The modules imported by the sources: migration-file.ts and
    run-migration.ts, as an interface *)

Class Collaborators : Type := {
  (** [load] of migration-file.ts, given the resolved path *)
  loadMigrationFile : string → FileSystem → Result Migration;
  (** [loadRaw(fileName, sql)] of migration-file.ts *)
  loadRaw : string → string → Result Migration;
  (** [runMigration(tableName, client, log)(migration)] *)
  runMigration : string → Migration → Database → Result Migration * Database;
}.

(** ** files-loader.ts: the set loader *)

Definition readDir (directory : string) : M (option (list string)) :=
  fun w =>
    match directories (fs w) !! directory with
    | Some fileNames => (inr (Some fileNames), w)
    | None =>
        (inl (Error ("ENOENT: no such file or directory, scandir '"
                     +:+ directory +:+ "'")), w)
    end.

(** [path.resolve(directory, fileName)] for an absolute, normalised
    directory and a plain file name. *)
Definition path_resolve (directory fileName : string) : string :=
  directory +:+ "/" +:+ fileName.

Definition createTableSql (tableName : string) : string :=
  "CREATE TABLE IF NOT EXISTS " +:+ dquote +:+ tableName +:+ dquote +:+ " (" +:+ nl
  +:+ "      id integer PRIMARY KEY," +:+ nl
  +:+ "      name varchar(100) UNIQUE NOT NULL," +:+ nl
  +:+ "      hash varchar(40) NOT NULL, -- sha1 hex encoded hash of the file name and contents, to ensure it hasn't been altered since applying the migration" +:+ nl
  +:+ "      executed_at timestamp DEFAULT current_timestamp" +:+ nl
  +:+ "    );" +:+ nl
  +:+ "    ".

Definition bootstrapFileName : string := "0_create-migrations-table.sql".

(** A value inside a template literal. *)
Definition js_to_string (v : JsValue) : string :=
  match v with
  | VUndefined => "undefined"
  | VNull => "null"
  | VBool true => "true"
  | VBool false => "false"
  | VNumber n => pretty n
  | VString s => s
  | VObject _ => "[object Object]"
  end.

(** [dbConfig.tableName!], a string by its type. *)
Definition get_tableName (dbConfig : nat) : M string :=
  fun w => (inr (js_to_string (get_property (heap w) (VObject dbConfig) "tableName")), w).

Definition fileNames_to_string (fileNames : option (list string)) : string :=
  match fileNames with
  | Some names => js_join names
  | None => "null"
  end.

Definition load `{Collaborators} (directory : string) (log : Logger)
    (config : nat) : M (list Migration) :=
  do_log log ("Loading migrations from: " +:+ directory) ;;;
  fileNames <- readDir directory ;;
  do_log log ("Found migration files: " +:+ fileNames_to_string fileNames) ;;;
  match fileNames with
  | Some names =>
      let migrationFiles :=
        List.filter isValidFile (List.map (path_resolve directory) names) in
      unorderedMigrations <-
        promise_all (fun p w => (loadMigrationFile p (fs w), w)) migrationFiles ;;
      tableName <- get_tableName config ;;
      bootstrap <- lift (loadRaw bootstrapFileName (createTableSql tableName)) ;;
      let unorderedMigrations := (unorderedMigrations ++ [bootstrap])%list in
      ret (sort_by Migration.id unorderedMigrations)
  | None => ret []
  end.

(** ** migrate.ts: the ledger reader *)

Definition fetchAppliedMigrationFromDB (migrationTableName : string)
    (log : Logger) : M (list Row) :=
  tableExists <- doesTableExist migrationTableName ;;
  if tableExists : bool then
    do_log log (nl +:+ "Migrations table with name '" +:+ migrationTableName
                +:+ "' exists," +:+ nl +:+ "filtering not applied migrations.") ;;;
    rows <- query_select migrationTableName ;;
    ret rows
  else
    do_log log (nl +:+ "Migrations table with name '" +:+ migrationTableName
                +:+ "' hasn't been created," +:+ nl
                +:+ "so the database is new and we need to run all migrations.") ;;;
    ret [].

(** A JavaScript array read as [Record<number, Row | undefined>]: the
    element at position [i] is the property [i]. *)
Definition array_as_record (rows : list Row) : gmap Z Row := map_seqZ 0 rows.

(** ** migrate.ts: the orchestrator *)

Definition logResult (completedMigrations : list Migration) (log : Logger)
  : M unit :=
  if (List.length completedMigrations =? 0)%nat
  then do_log log "No migrations applied"
  else do_log log ("Successfully applied migrations: "
                   +:+ js_join (List.map Migration.name completedMigrations)).

Definition client_runMigration `{Collaborators} (tableName : string)
    (migration : Migration) : M Migration :=
  fun w =>
    let '(result, d) := runMigration tableName migration (db w) in
    (result, with_db d (emit (RunMigration tableName migration) w)).

(** The [for ... of] loop over the pending units. *)
Fixpoint applyMigrations `{Collaborators} (dbConfig : nat)
    (filteredMigrations completedMigrations : list Migration)
  : M (list Migration) :=
  match filteredMigrations with
  | [] => ret completedMigrations
  | migration :: rest =>
      tableName <- get_tableName dbConfig ;;
      result <- client_runMigration tableName migration ;;
      applyMigrations dbConfig rest (completedMigrations ++ [result])%list
  end.

Definition migrationFailed (err : JsError) : JsError :=
  ErrorWithCause ("Migration failed. Reason: " +:+ message err) err.

Definition runMigrations `{Collaborators} (dbConfig : nat)
    (migrationsDirectory : string) (config : Config) : M (list Migration) :=
  let log := match logger config with Some l => l | None => noopLogger end in
  do_log log "Attempting database migration" ;;;
  try_finally
    (try_catch
       (client_connect ;;;
        do_log log "Connected to database" ;;;
        migrations <- load migrationsDirectory log dbConfig ;;
        tableName <- get_tableName dbConfig ;;
        appliedMigrations <- fetchAppliedMigrationFromDB tableName log ;;
        lift (validateMigrations migrations (array_as_record appliedMigrations)) ;;;
        let filteredMigrations :=
          filterMigrations migrations (array_as_record appliedMigrations) in
        completedMigrations <- applyMigrations dbConfig filteredMigrations [] ;;
        logResult completedMigrations log ;;;
        ret completedMigrations)
       (fun err => throw (migrationFailed err)))
    (try_catch client_end
       (fun e => do_log log ("Error closing the connetion: " +:+ message e))).

Definition DEFAULT_MIGRATION_TABLE_NAME : string := "migrations".

Definition is_nullish (v : JsValue) : bool :=
  match v with VUndefined | VNull => true | _ => false end.

Definition is_undefined (v : JsValue) : bool :=
  match v with VUndefined => true | _ => false end.

Definition bad_dbConfig (h : Heap) (dbConfig : JsValue) : bool :=
  is_nullish dbConfig
  || negb (String.eqb (typeof (get_property h dbConfig "database")) "string")
  || negb (String.eqb (typeof (get_property h dbConfig "user")) "string")
  || negb (String.eqb (typeof (get_property h dbConfig "password")) "string")
  || negb (String.eqb (typeof (get_property h dbConfig "host")) "string")
  || negb (String.eqb (typeof (get_property h dbConfig "port")) "number").

Definition migrate `{Collaborators} (dbConfig migrationsDirectory : JsValue)
    (config : option Config) : M (list Migration) :=
  fun w =>
    if bad_dbConfig (heap w) dbConfig
    then (inl (Error "Database config problem"), w)
    else
      match migrationsDirectory, dbConfig with
      | VString directory, VObject ref =>
          let w1 :=
            if is_undefined (get_property (heap w) dbConfig "tableName")
            then with_heap (set_property (heap w) ref "tableName"
                              (VString DEFAULT_MIGRATION_TABLE_NAME)) w
            else w in
          runMigrations ref directory
            (default {| logger := None |} config) w1
      | VString _, _ =>
          (* not reached: a primitive has none of the checked fields *)
          (inl (Error "Database config problem"), w)
      | _, _ => (inl (Error "Must pass migrations directory as a string"), w)
      end.

(** ** The absent modules, modelled from the specification *)

(** The digest and the server's execution of a migration body. *)
Class Primitives : Type := {
  hashString : string → string;
  execSql : string → Database → Result Database;
}.

Definition digit_of (c : ascii) : option Z :=
  let n := nat_of_ascii c in
  if ((48 <=? n)%nat && (n <=? 57)%nat)%bool then Some (Z.of_nat (n - 48)) else None.

Fixpoint parse_ordinal_aux (acc : Z) (s : string) : Z * string :=
  match s with
  | String c rest =>
      match digit_of c with
      | Some d => parse_ordinal_aux (10 * acc + d) rest
      | None => (acc, s)
      end
  | EmptyString => (acc, s)
  end.

(** The leading ordinal of a name and the remainder; a name that starts
    with no digit (a sign included) has none. *)
Definition parse_ordinal (s : string) : option (Z * string) :=
  match s with
  | String c _ =>
      match digit_of c with
      | Some _ => Some (parse_ordinal_aux 0 s)
      | None => None
      end
  | EmptyString => None
  end.

Fixpoint has_slash (p : string) : bool :=
  match p with
  | EmptyString => false
  | String c rest => Ascii.eqb c "/" || has_slash rest
  end.

(** The last segment of a path. *)
Fixpoint basename (p : string) : string :=
  match p with
  | EmptyString => EmptyString
  | String _ rest => if has_slash p then basename rest else p
  end.

Definition malformedUnitError (fileName : string) : JsError :=
  Error ("MalformedUnitError: " +:+ fileName).

(** Modelled from the spec: migration-file.ts (the Migration Unit Loader,
    spec 4.1) is not among the sources. The id is the leading ordinal of
    the source name, the name is the remainder, the hash is the digest of
    name and body; a name without an ordinal is malformed. This is the raw
    construction path used for the bootstrap unit. *)
Definition loadRaw_spec `{Primitives} (fileName sql : string) : Result Migration :=
  match parse_ordinal fileName with
  | Some (n, rest) =>
      inr {| Migration.id := n; Migration.name := rest;
             Migration.fileName := fileName;
             Migration.hash := hashString (fileName +:+ sql);
             Migration.sql := sql |}
  | None => inl (malformedUnitError fileName)
  end.

(** Modelled from the spec: migration-file.ts is not among the sources.
    The unit of a file is built from the last segment of its path and its
    content, hashed as on the raw path. *)
Definition loadMigrationFile_spec `{Primitives} (filePath : string)
    (f : FileSystem) : Result Migration :=
  match files f !! filePath with
  | Some contents => loadRaw_spec (basename filePath) contents
  | None =>
      inl (Error ("ENOENT: no such file or directory, open '" +:+ filePath +:+ "'"))
  end.

(** *** The text of a body, as the server reads it

    A reader of the statements of the form [CREATE TABLE ... (columns)]:
    words are folded to lower case, a name between double quotes is kept
    as it is spelled, [--] starts a comment that runs to the end of the
    line. A text that is not of this form is not read here. *)

Inductive Token : Type :=
| TWord (word : string)
| TQuoted (name : string)
| TSym (c : ascii).

Inductive LexState : Type :=
| InText
| InWord (acc : string)
| InQuoted (acc : string)
| AfterDash
| InComment.

Definition is_space (c : ascii) : bool :=
  Ascii.eqb c " " || Ascii.eqb c "009" || Ascii.eqb c "010"
  || Ascii.eqb c "012" || Ascii.eqb c "013".

Definition is_symbol (c : ascii) : bool :=
  Ascii.eqb c "(" || Ascii.eqb c ")" || Ascii.eqb c "," || Ascii.eqb c ";".

Definition snoc (s : string) (c : ascii) : string := s +:+ String c EmptyString.

Definition lex_start (c : ascii) (out : list Token)
  : option (LexState * list Token) :=
  if is_space c then Some (InText, out)
  else if Ascii.eqb c "034" then Some (InQuoted EmptyString, out)
  else if Ascii.eqb c "-" then Some (AfterDash, out)
  else if is_word_char c then Some (InWord (String (to_lower c) EmptyString), out)
  else if is_symbol c then Some (InText, TSym c :: out)
  else None.

(** [out] holds the tokens read so far, the last one first. *)
Fixpoint lex (st : LexState) (out : list Token) (s : string)
  : option (list Token) :=
  match s with
  | EmptyString =>
      match st with
      | InText | InComment => Some (List.rev out)
      | InWord acc => Some (List.rev (TWord acc :: out))
      | InQuoted _ | AfterDash => None
      end
  | String c rest =>
      match st with
      | InText =>
          match lex_start c out with
          | Some (st', out') => lex st' out' rest
          | None => None
          end
      | InWord acc =>
          if is_word_char c then lex (InWord (snoc acc (to_lower c))) out rest
          else
            match lex_start c (TWord acc :: out) with
            | Some (st', out') => lex st' out' rest
            | None => None
            end
      | InQuoted acc =>
          if Ascii.eqb c "034" then lex InText (TQuoted acc :: out) rest
          else lex (InQuoted (snoc acc c)) out rest
      | AfterDash => if Ascii.eqb c "-" then lex InComment out rest else None
      | InComment =>
          if Ascii.eqb c "010" || Ascii.eqb c "013" then lex InText out rest
          else lex InComment out rest
      end
  end.

Inductive Constraint : Type :=
| PrimaryKey
| Unique
| NotNull
| Default (value : string).

Record Column : Type := {
  column_name : string;
  data_type : string;
  type_size : option string;
  constraints : list Constraint;
}.

Record CreateTable : Type := {
  if_not_exists : bool;
  table_name : string;
  columns : list Column;
}.

#[local] Instance Constraint_eq_dec : EqDecision Constraint.
Proof. solve_decision. Defined.

#[local] Instance Column_eq_dec : EqDecision Column.
Proof. solve_decision. Defined.

Fixpoint parse_constraints (toks : list Token) : list Constraint * list Token :=
  match toks with
  | TWord w1 :: rest1 =>
      if String.eqb w1 "unique"
      then let '(cs, r) := parse_constraints rest1 in (Unique :: cs, r)
      else
        match rest1 with
        | TWord w2 :: rest2 =>
            if String.eqb w1 "primary" && String.eqb w2 "key"
            then let '(cs, r) := parse_constraints rest2 in (PrimaryKey :: cs, r)
            else if String.eqb w1 "not" && String.eqb w2 "null"
            then let '(cs, r) := parse_constraints rest2 in (NotNull :: cs, r)
            else if String.eqb w1 "default"
            then let '(cs, r) := parse_constraints rest2 in (Default w2 :: cs, r)
            else ([], toks)
        | _ => ([], toks)
        end
  | _ => ([], toks)
  end.

Definition parse_size (toks : list Token) : option string * list Token :=
  match toks with
  | TSym o :: TWord n :: TSym c :: rest =>
      if Ascii.eqb o "(" && Ascii.eqb c ")" then (Some n, rest) else (None, toks)
  | _ => (None, toks)
  end.

Definition parse_column (toks : list Token) : option (Column * list Token) :=
  match toks with
  | TWord name :: TWord type :: rest =>
      let '(size, rest1) := parse_size rest in
      let '(cs, rest2) := parse_constraints rest1 in
      Some ({| column_name := name; data_type := type; type_size := size;
               constraints := cs |}, rest2)
  | _ => None
  end.

Fixpoint parse_columns (fuel : nat) (toks : list Token)
  : option (list Column * list Token) :=
  match fuel with
  | O => None
  | S fuel' =>
      match parse_column toks with
      | Some (col, TSym c :: rest) =>
          if Ascii.eqb c ","
          then
            match parse_columns fuel' rest with
            | Some (cols, rest') => Some (col :: cols, rest')
            | None => None
            end
          else Some ([col], TSym c :: rest)
      | Some (col, rest) => Some ([col], rest)
      | None => None
      end
  end.

Definition table_of (t : Token) : option string :=
  match t with
  | TQuoted name => Some name
  | TWord word => if is_identifier word then Some word else None
  | TSym _ => None
  end.

Definition ends_statement (toks : list Token) : bool :=
  match toks with
  | [TSym c] => Ascii.eqb c ")"
  | [TSym c; TSym s] => Ascii.eqb c ")" && Ascii.eqb s ";"
  | _ => false
  end.

Definition parse_tokens (toks : list Token) : option CreateTable :=
  match toks with
  | TWord w1 :: TWord w2 :: rest =>
      if String.eqb w1 "create" && String.eqb w2 "table" then
        let '(guarded, rest1) :=
          match rest with
          | TWord a :: TWord b :: TWord c :: r =>
              if String.eqb a "if" && String.eqb b "not" && String.eqb c "exists"
              then (true, r) else (false, rest)
          | _ => (false, rest)
          end in
        match rest1 with
        | name :: TSym o :: rest2 =>
            match table_of name, parse_columns (List.length rest2) rest2 with
            | Some tableName, Some (cols, rest3) =>
                if Ascii.eqb o "(" && ends_statement rest3
                then Some {| if_not_exists := guarded; table_name := tableName;
                             columns := cols |}
                else None
            | _, _ => None
            end
        | _ => None
        end
      else None
  | _ => None
  end.

Definition parse_create_table (sql : string) : option CreateTable :=
  match lex InText [] sql with
  | Some toks => parse_tokens toks
  | None => None
  end.

(** The layout of the ledger table: the columns of a [Row]. *)
Definition ledger_columns : list Column :=
  [{| column_name := "id"; data_type := "integer"; type_size := None;
      constraints := [PrimaryKey] |};
   {| column_name := "name"; data_type := "varchar"; type_size := Some "100";
      constraints := [Unique; NotNull] |};
   {| column_name := "hash"; data_type := "varchar"; type_size := Some "40";
      constraints := [NotNull] |};
   {| column_name := "executed_at"; data_type := "timestamp"; type_size := None;
      constraints := [Default "current_timestamp"] |}].

(** A code unit that stands for itself between double quotes: one byte
    of ASCII other than the double quote and the zero byte. *)
Definition is_quotable_char (c : ascii) : bool :=
  negb (Ascii.eqb c "034")
  && ((1 <=? nat_of_ascii c)%nat && (nat_of_ascii c <=? 127)%nat).

(** A name that, written between double quotes, names a relation by its
    exact spelling: one to 63 bytes, each standing for itself. *)
Definition is_quotable (name : string) : bool :=
  (1 <=? String.length name)%nat && (String.length name <=? 63)%nat
  && all_chars is_quotable_char name.

(** [CREATE TABLE IF NOT EXISTS tableName (...)] on the server. *)
Definition create_table_if_not_exists (tableName : string) (d : Database)
  : Database :=
  match resolve d tableName with
  | Some _ => d
  | None =>
      {| pg_class := (pg_class d ++
                     [{| relname := tableName; relnamespace := current_schema d;
                         relkind := "r"; relrows := [] |}])%list;
         current_schema := current_schema d; clock := clock d;
         select_other := select_other d |}
  end.

(** The ledger row written for an applied unit. *)
Definition ledger_row (m : Migration) (at_ : Z) : Row :=
  {| Row.id := Migration.id m; Row.name := Migration.name m;
     Row.hash := Migration.hash m; Row.executed_at := at_ |}.

(** [INSERT INTO tableName (id, name, hash) VALUES (...)] under the
    constraints of the ledger layout: id is the primary key, name is
    unique, executed_at defaults to the current time. *)
Definition insert_row (tableName : string) (m : Migration) (d : Database)
  : Result Database :=
  match resolve d tableName with
  | None => inl (undefined_table tableName)
  | Some c =>
      if existsb (fun r => Z.eqb (Row.id r) (Migration.id m)) (relrows c)
         || existsb (fun r => String.eqb (Row.name r) (Migration.name m)) (relrows c)
      then inl (Error "duplicate key value violates unique constraint")
      else
        let row := ledger_row m (clock d) in
        inr {| pg_class :=
                 List.map (fun c' =>
                             if matches d tableName c'
                             then {| relname := relname c';
                                     relnamespace := relnamespace c';
                                     relkind := relkind c';
                                     relrows := (relrows c' ++ [row])%list |}
                             else c') (pg_class d);
               current_schema := current_schema d;
               clock := clock d + 1;
               select_other := select_other d |}
  end.

Definition migrationApplyError (m : Migration) (e : JsError) : JsError :=
  ErrorWithCause ("MigrationApplyError: " +:+ Migration.name m) e.

(** The server's execution of a body. A body it reads as
    [CREATE TABLE IF NOT EXISTS name] with the ledger layout creates that
    table, unless the name already resolves to a relation; every other
    body is left to [execSql]. *)
Definition server_exec `{Primitives} (sql : string) (d : Database)
  : Result Database :=
  match parse_create_table sql with
  | Some stmt =>
      if if_not_exists stmt && bool_decide (columns stmt = ledger_columns)
         && is_quotable (table_name stmt)
      then inr (create_table_if_not_exists (table_name stmt) d)
      else execSql sql d
  | None => execSql sql d
  end.

(** Modelled from the spec: run-migration.ts (the Executor, spec 4.5) is
    not among the sources. The body is executed as one batch, then the
    ledger row (id, name, hash) is inserted; the applied unit is returned;
    a failure of either step propagates with the original as its cause. *)
Definition runMigration_spec `{Primitives} (tableName : string) (m : Migration)
    (d : Database) : Result Migration * Database :=
  match server_exec (Migration.sql m) d with
  | inl e => (inl (migrationApplyError m e), d)
  | inr d1 =>
      match insert_row tableName m d1 with
      | inl e => (inl (migrationApplyError m e), d1)
      | inr d2 => (inr m, d2)
      end
  end.

#[local] Instance specCollaborators `{Primitives} : Collaborators := {
  loadMigrationFile := loadMigrationFile_spec;
  loadRaw := loadRaw_spec;
  runMigration := runMigration_spec;
}.

(** ** Observations on a run *)

Definition logger_of (config : Config) : Logger :=
  match logger config with Some l => l | None => noopLogger end.

(** The [finally] block of [runMigrations]. *)
Definition closing (log : Logger) : M unit :=
  try_catch client_end
    (fun e => do_log log ("Error closing the connetion: " +:+ message e)).

(** [runMigrations] up to the call of [validateMigrations]: the units
    loaded and the array of applied rows fetched. *)
Definition connectAndLoad `{Collaborators} (dbConfig : nat)
    (migrationsDirectory : string) (config : Config)
  : M (list Migration * list Row) :=
  let log := logger_of config in
  do_log log "Attempting database migration" ;;;
  client_connect ;;;
  do_log log "Connected to database" ;;;
  migrations <- load migrationsDirectory log dbConfig ;;
  tableName <- get_tableName dbConfig ;;
  appliedMigrations <- fetchAppliedMigrationFromDB tableName log ;;
  ret (migrations, appliedMigrations).

(** The units handed to the executor, in order. *)
Fixpoint executed_of (tr : list Event) : list Migration :=
  match tr with
  | [] => []
  | RunMigration _ m :: rest => m :: executed_of rest
  | _ :: rest => executed_of rest
  end.

Definition executed (w : World) : list Migration := executed_of (trace w).

(** The caller's objects, the file system and the session outcomes are
    the same in both worlds. *)
Definition same_env (w w' : World) : Prop :=
  heap w' = heap w ∧ fs w' = fs w
  ∧ connectError w' = connectError w ∧ endError w' = endError w.

(** Between [w] and [w'] no unit was executed and the database was not
    changed. *)
Definition quiet (w w' : World) : Prop :=
  same_env w w' ∧ db w' = db w ∧ executed w' = executed w.

(** The applied record holds, under the id of [u], a hash other than the
    hash of [u]. *)
Definition hash_differs (appliedMigrations : gmap Z Row) (u : Migration) : Prop :=
  ∃ r, appliedMigrations !! Migration.id u = Some r
       ∧ Row.hash r ≠ Migration.hash u.

(** Every unit sits at the position of its id. *)
Definition consecutive (migrations : list Migration) : Prop :=
  ∀ (i : nat) u, migrations !! i = Some u → Migration.id u = Z.of_nat i.

(** The catalog lookup of [doesTableExist] as a value. *)
Definition table_exists (d : Database) (tableName : string) : bool :=
  let rows := select_exists d tableName in
  (0 <? List.length rows)%nat && default false (head rows).

(** The rows of the ordinary table that the exact name resolves to in
    the schema of the session. *)
Definition ledger (d : Database) (tableName : string) : option (list Row) :=
  match resolve d tableName with
  | Some c => if Ascii.eqb (relkind c) "r" then Some (relrows c) else None
  | None => None
  end.

(** Every run of [m] relates the world it starts in to the world it ends
    in by [R]. *)
Definition preserves {A : Type} (R : World → World → Prop) (m : M A) : Prop :=
  ∀ w r w', m w = (r, w') → R w w'.

(** ** Concrete scenarios *)

Definition unit0 : Migration :=
  {| Migration.id := 0; Migration.name := "_create-migrations-table.sql";
     Migration.fileName := "0_create-migrations-table.sql";
     Migration.hash := "h0"; Migration.sql := "CREATE TABLE IF NOT EXISTS" |}.

Definition unit1 : Migration :=
  {| Migration.id := 1; Migration.name := "_create_users.sql";
     Migration.fileName := "1_create_users.sql";
     Migration.hash := "h1"; Migration.sql := "CREATE TABLE users (id integer)" |}.

Definition unit2 : Migration :=
  {| Migration.id := 2; Migration.name := "_add_email_index.sql";
     Migration.fileName := "2_add_email_index.sql";
     Migration.hash := "h2";
     Migration.sql := "CREATE INDEX users_email ON users (email)" |}.

Definition unit3 : Migration :=
  {| Migration.id := 3; Migration.name := "_add_votes.sql";
     Migration.fileName := "3_add_votes.sql";
     Migration.hash := "h3"; Migration.sql := "CREATE TABLE votes (id integer)" |}.

Definition row_of (m : Migration) (hash : string) (at_ : Z) : Row :=
  {| Row.id := Migration.id m; Row.name := Migration.name m;
     Row.hash := hash; Row.executed_at := at_ |}.

(** Units 0, 1 and then 3: a gap at position 2. *)
Definition units_with_gap : list Migration := [unit0; unit1; unit3].

Definition units_dense : list Migration := [unit0; unit1].

(** Units 0 and 2: the file of unit 1 is missing. *)
Definition units_missing_file : list Migration := [unit0; unit2].

(** Units 0, 1 and 2 recorded, the last with another hash. *)
Definition applied_three_tampered : gmap Z Row :=
  array_as_record [row_of unit0 "h0" 5; row_of unit1 "h1" 6; row_of unit2 "other" 7].

(** Both units recorded, the second with another hash. *)
Definition applied_tampered : gmap Z Row :=
  array_as_record [row_of unit0 "h0" 5; row_of unit1 "other" 6].

Definition applied_all : gmap Z Row :=
  array_as_record [row_of unit0 "h0" 5; row_of unit1 "h1" 6].

Definition applied_first : gmap Z Row := array_as_record [row_of unit0 "h0" 5].

(** A configuration object of type [MigrateDBConfig], as far as [migrate]
    checks it. *)
Definition valid_dbConfig (o : JsObject) : Prop :=
  (∃ s, o !! "database" = Some (VString s))
  ∧ (∃ s, o !! "user" = Some (VString s))
  ∧ (∃ s, o !! "password" = Some (VString s))
  ∧ (∃ s, o !! "host" = Some (VString s))
  ∧ (∃ n, o !! "port" = Some (VNumber n)).


Definition public_db (relations : list Relation) : Database :=
  {| pg_class := relations; current_schema := "public"; clock := 10;
     select_other := fun _ => inl (Error "syntax error") |}.

Definition world_of (d : Database) (connect : option JsError) : World :=
  {| heap := ∅; fs := {| directories := ∅; files := ∅ |}; db := d;
     connectError := connect; endError := None; trace := []; console := [] |}.


(** The only relation named like the ledger table lives in another
    schema. *)
Definition world_other_schema : World :=
  world_of (public_db [{| relname := "migrations"; relnamespace := "audit";
                          relkind := "r"; relrows := [] |}]) None.

(** The server refuses the connection. *)
Definition world_refused : World :=
  world_of (public_db []) (Some (Error "connect ECONNREFUSED 127.0.0.1:5432")).

(** A logger that keeps the lines it is handed, in order. *)
Definition recordingLogger : Logger := fun msg lines => (lines ++ [msg])%list.

(** The server refuses the connection, and the close fails as well. *)
Definition world_unreachable : World :=
  {| heap := ∅; fs := {| directories := ∅; files := ∅ |}; db := public_db [];
     connectError := Some (Error "connect ECONNREFUSED 127.0.0.1:5432");
     endError := Some (Error "Connection terminated");
     trace := []; console := [] |}.

(** ** Statements about the spec-modelled collaborators *)

(** The bootstrap unit for a ledger-table name. *)
Definition bootstrapUnit `{Primitives} (tableName : string) : Migration :=
  {| Migration.id := 0; Migration.name := "_create-migrations-table.sql";
     Migration.fileName := bootstrapFileName;
     Migration.hash := hashString (bootstrapFileName +:+ createTableSql tableName);
     Migration.sql := createTableSql tableName |}.

(** The statement the bootstrap body spells for a table name. *)
Definition bootstrapStatement (tableName : string) : CreateTable :=
  {| if_not_exists := true; table_name := tableName; columns := ledger_columns |}.

(** Executed in [d], the body succeeds and leaves the ledger table as it
    is. *)
Definition leaves_ledger `{Primitives} (tableName body : string) (d : Database)
  : Prop :=
  ∃ d', server_exec body d = inr d'
        ∧ ledger d' tableName = ledger d tableName
        ∧ table_exists d' tableName = table_exists d tableName.

(** Started in [d], each of the units finds, when its turn comes, a
    database in which its body succeeds and leaves the ledger table as it
    is. *)
Fixpoint bodies_apply `{Primitives} (tableName : string) (units : list Migration)
    (d : Database) : Prop :=
  match units with
  | [] => True
  | u :: rest =>
      leaves_ledger tableName (Migration.sql u) d
      ∧ ∀ d', runMigration_spec tableName u d = (inr u, d') →
              bodies_apply tableName rest d'
  end.




Definition file1 : string := "1_create_users.sql".
Definition file2 : string := "2_add_email_index.sql".

(** A toy server and digest for the scenarios: a division by zero fails,
    any other body that is not the creation of a ledger table succeeds
    and changes nothing. *)
Definition toy_execSql (sql : string) (d : Database) : Result Database :=
  if String.eqb sql "SELECT 1/0" then inl (Error "division by zero")
  else inr d.

Definition toyPrimitives : Primitives :=
  {| hashString := fun s => s; execSql := toy_execSql |}.

Definition toyCollaborators : Collaborators := @specCollaborators toyPrimitives.

(** A caller's configuration object without [tableName]. *)
Definition callerConfig : JsObject :=
  list_to_map [("database", VString "polls"); ("user", VString "postgres");
               ("password", VString "secret"); ("host", VString "localhost");
               ("port", VNumber 5432)].

(** The same with the table name filled in. *)
Definition callerConfigNamed : JsObject :=
  <["tableName" := VString "migrations"]> callerConfig.

Definition scenario (names : list string) (contents : list (string * string))
    (d : Database) : World :=
  {| heap := {[ 7%nat := callerConfigNamed ]};
     fs := {| directories := {[ "/migrations" := names ]};
              files := list_to_map contents |};
     db := d; connectError := None; endError := None;
     trace := []; console := [] |}.

Definition world_empty_dir : World := scenario [] [] (public_db []).

Definition world_two_files : World :=
  scenario [file2; file1]
    [("/migrations/1_create_users.sql", "CREATE TABLE users (id integer)");
     ("/migrations/2_add_email_index.sql", "CREATE INDEX users_email ON users (id)")]
    (public_db []).

(** A world whose caller has not set the table name. *)
Definition world_unnamed : World :=
  with_heap {[ 7%nat := callerConfig ]} world_empty_dir.

Definition unit_failing : Migration :=
  {| Migration.id := 2; Migration.name := "_broken.sql";
     Migration.fileName := "2_broken.sql";
     Migration.hash := "h2"; Migration.sql := "SELECT 1/0" |}.

(** The ledger exists and records unit 0. *)
Definition world_after_bootstrap : World :=
  scenario [] []
    (public_db [{| relname := "migrations"; relnamespace := "public";
                   relkind := "r"; relrows := [row_of unit0 "h0" 5] |}]).

(** ** Further observations *)

(** [c] is the letter [lower] in either case. *)
Definition letter (lower : ascii) (c : ascii) : Prop :=
  c = lower ∨ c = ascii_of_nat (nat_of_ascii lower - 32).

(** *** File names as JavaScript strings

    A JavaScript string is a sequence of 16-bit code units, and a pattern
    without the [u] flag is matched code unit by code unit. The strings
    above are the names whose code units are all below 256. *)

Section CodeUnits.
(** [toUpperCase] on a single code unit, by the tables of Unicode. *)
Variable toUpperCase : N → list N.

(** [Canonicalize(ch)] for a pattern with the [i] flag and without the
    [u] flag. *)
Definition Canonicalize (ch : N) : N :=
  match toUpperCase ch with
  | [cu] => if ((128 <=? ch) && (cu <? 128))%N then ch else cu
  | _ => ch
  end.

(** The code units the dot of a pattern refuses: LF, CR, U+2028 and
    U+2029. *)
Definition is_LineTerminator (c : N) : bool :=
  N.eqb c 10 || N.eqb c 13 || N.eqb c 8232 || N.eqb c 8233.

Fixpoint ci_eqb_units (s p : list N) : bool :=
  match s, p with
  | [], [] => true
  | a :: s', b :: p' => N.eqb (Canonicalize a) (Canonicalize b) && ci_eqb_units s' p'
  | _, _ => false
  end.

(** The pattern [.(sql|js)$] at the head of [s]; 115 113 108 and 106 115
    are the code units of [sql] and [js]. *)
Definition match_here_units (s : list N) : bool :=
  match s with
  | [] => false
  | c :: rest =>
      negb (is_LineTerminator c)
      && (ci_eqb_units rest [115; 113; 108]%N || ci_eqb_units rest [106; 115]%N)
  end.

Fixpoint match_from_units (s : list N) : bool :=
  match s with
  | [] => false
  | _ :: rest => match_here_units s || match_from_units rest
  end.

Definition RegExp_test_units (re : RegExp) (s : list N) : bool * RegExp :=
  if (List.length s <? lastIndex re)%nat then (false, {| lastIndex := 0 |})
  else if match_from_units (drop (lastIndex re) s)
       then (true, {| lastIndex := List.length s |})
       else (false, {| lastIndex := 0 |}).

Definition isValidFile_units (fileName : list N) : bool :=
  fst (RegExp_test_units {| lastIndex := 0 |} fileName).
End CodeUnits.

(** The code units of a string of the model. *)
Definition code_units (s : string) : list N :=
  List.map N_of_ascii (list_ascii_of_string s).

(** The upper-case mapping of the code units below 128. *)
Definition ascii_toUpperCase (c : N) : list N :=
  [if ((97 <=? c) && (c <=? 122))%N then (c - 32)%N else c].

(** What is used of the tables of Unicode: on the code units below 128,
    upper case is that of ASCII. *)
Definition agrees_on_ascii (toUpperCase : N → list N) : Prop :=
  ∀ c, (c < 128)%N → toUpperCase c = ascii_toUpperCase c.

(** [c] is the code unit of the letter [lower], in either case. *)
Definition letter_unit (lower c : N) : Prop := c = lower ∨ c = (lower - 32)%N.

(** The endings [sql] and [js], in any mix of cases. *)
Definition recognized_kind_units (ext : list N) : Prop :=
  (∃ a b c, ext = [a; b; c]
            ∧ letter_unit 115 a ∧ letter_unit 113 b ∧ letter_unit 108 c)
  ∨ (∃ a b, ext = [a; b] ∧ letter_unit 106 a ∧ letter_unit 115 b).

(** A required field of the configuration that does not hold a value of
    the type [migrate] checks for. *)
Definition ill_typed (h : Heap) (dbConfig : JsValue) : Prop :=
  (∃ field, In field ["database"; "user"; "password"; "host"]
            ∧ ∀ s, get_property h dbConfig field ≠ VString s)
  ∨ (∀ n, get_property h dbConfig "port" ≠ VNumber n).

(** Between [w] and [w'] nothing was asked of the session or of the
    executor, and nothing else changed but the logger's sink. *)
Definition idle (w w' : World) : Prop :=
  same_env w w' ∧ db w' = db w ∧ trace w' = trace w.

(** The queries of the ledger reader: the catalog lookup, and the SELECT
    when the lookup found the table. *)
Definition reader_queries (tableName : string) (found : bool) : list Event :=
  if found then [QueryTableExists tableName; QuerySelect tableName]
  else [QueryTableExists tableName].

(** The table name a run works with. *)
Definition configured_tableName (w : World) (dbConfig : nat) : string :=
  js_to_string (get_property (heap w) (VObject dbConfig) "tableName").

(** A directory with one candidate whose name carries no ordinal. *)
Definition world_bad_file : World :=
  scenario ["notes.sql"] [("/migrations/notes.sql", "SELECT 1")] (public_db []).

(** The ledger table exists under a name with an upper-case letter, as
    the bootstrap statement creates it for that name. *)
Definition world_mixed_case : World :=
  world_of (public_db [{| relname := "Migrations"; relnamespace := "public";
                          relkind := "r"; relrows := [] |}]) None.


(** * Properties *)

Local Open Scope Z_scope.

(** ** The reconciler *)

Lemma js_find_from_None {A : Type} (p : A → nat → bool) (l : list A) (i : nat) :
  js_find_from p l i = None ↔ ∀ (k : nat) x, l !! k = Some x → p x (i + k)%nat = false.
Proof.
  revert i. induction l as [|y l IH]; intros i; simpl.
  - split; [intros _ k x Hk; destruct k; discriminate | done].
  - destruct (p y i) eqn:Hp.
    + split; [done|]. intros Hall. specialize (Hall 0%nat y eq_refl).
      rewrite Nat.add_0_r in Hall. congruence.
    + rewrite IH. split.
      * intros Hall [|k] x Hk; simpl in Hk.
        -- injection Hk as <-. by rewrite Nat.add_0_r.
        -- rewrite <- Nat.add_succ_comm. by apply Hall.
      * intros Hall k x Hk. rewrite Nat.add_succ_comm. by apply (Hall (S k)).
Qed.

Lemma js_find_from_Some {A : Type} (p : A → nat → bool) (l : list A) (i : nat) x :
  js_find_from p l i = Some x →
  ∃ k : nat, l !! k = Some x ∧ p x (i + k)%nat = true
      ∧ ∀ (k' : nat) y, (k' < k)%nat → l !! k' = Some y → p y (i + k')%nat = false.
Proof.
  revert i. induction l as [|y l IH]; intros i; simpl; [done|].
  destruct (p y i) eqn:Hp.
  - intros [= <-]. exists 0%nat. rewrite Nat.add_0_r.
    repeat split; [done|]. intros k' z Hk'. lia.
  - intros Hf. destruct (IH _ Hf) as (k & Hk & Hpk & Hmin).
    exists (S k). rewrite <- Nat.add_succ_comm. repeat split; [done..|].
    intros [|k'] z Hlt Hz; simpl in Hz.
    + injection Hz as <-. by rewrite Nat.add_0_r.
    + rewrite <- Nat.add_succ_comm. apply Hmin; [lia|done].
Qed.

Lemma indexNotMatch_false u (i : nat) :
  indexNotMatch u i = false ↔ Migration.id u = Z.of_nat i.
Proof.
  unfold indexNotMatch. rewrite negb_false_iff. apply Z.eqb_eq.
Qed.

Lemma indexNotMatch_true u (i : nat) :
  indexNotMatch u i = true ↔ Migration.id u ≠ Z.of_nat i.
Proof.
  unfold indexNotMatch. rewrite negb_true_iff. apply Z.eqb_neq.
Qed.

Lemma consecutive_find (migrations : list Migration) :
  consecutive migrations ↔ js_find indexNotMatch migrations = None.
Proof.
  unfold js_find. rewrite js_find_from_None. unfold consecutive.
  split; intros Hc k x Hk; specialize (Hc k x Hk); simpl in *;
    by apply indexNotMatch_false.
Qed.

Lemma invalidHash_true applied u :
  invalidHash applied u = true ↔ hash_differs applied u.
Proof.
  unfold invalidHash, hash_differs.
  destruct (applied !! Migration.id u) as [r|].
  - rewrite negb_true_iff, String.eqb_neq. split.
    + intros Hne. by exists r.
    + intros (r' & [= <-] & Hne). done.
  - split; [done|]. by intros (r & ? & _).
Qed.

Lemma first_violation (migrations : list Migration) (i : nat) u :
  migrations !! i = Some u → Migration.id u ≠ Z.of_nat i →
  ∃ (j : nat) v, js_find indexNotMatch migrations = Some v
    ∧ migrations !! j = Some v ∧ Migration.id v ≠ Z.of_nat j
    ∧ ∀ (k : nat) x, (k < j)%nat → migrations !! k = Some x → Migration.id x = Z.of_nat k.
Proof.
  intros Hi Hne.
  destruct (js_find indexNotMatch migrations) as [v|] eqn:Hf.
  - apply js_find_from_Some in Hf as (j & Hj & Hp & Hmin). simpl in *.
    exists j, v. repeat split; [done| |].
    + by apply indexNotMatch_true.
    + intros k x Hlt Hk. apply indexNotMatch_false. by apply (Hmin k).
  - apply consecutive_find in Hf. by specialize (Hf i u Hi).
Qed.

Lemma validateMigrations_nonConsecutive migrations applied v :
  js_find indexNotMatch migrations = Some v →
  validateMigrations migrations applied
  = inl (nonConsecutiveIdError (Migration.fileName v)).
Proof. intros Hf. unfold validateMigrations. by rewrite Hf. Qed.

Lemma validateMigrations_consecutive migrations applied :
  consecutive migrations →
  validateMigrations migrations applied
  = match List.filter (invalidHash applied) migrations with
    | [] => inr tt
    | offending => inl (hashMismatchError (List.map Migration.fileName offending))
    end.
Proof.
  intros Hc. apply consecutive_find in Hc. unfold validateMigrations.
  rewrite Hc. simpl. by destruct (List.filter _ _).
Qed.

(** ** Frame properties of the monad and of the session *)

Lemma executed_of_app tr1 tr2 :
  executed_of (tr1 ++ tr2) = (executed_of tr1 ++ executed_of tr2)%list.
Proof.
  induction tr1 as [|e tr1 IH]; simpl; [done|].
  destruct e; simpl; by rewrite IH.
Qed.

Lemma same_env_preorder : PreOrder same_env.
Proof.
  split.
  - by intros w.
  - intros w1 w2 w3 (?&?&?&?) (?&?&?&?). unfold same_env. by repeat split; etrans.
Qed.

#[local] Existing Instance same_env_preorder.

Lemma quiet_preorder : PreOrder quiet.
Proof.
  split.
  - intros w. by repeat split.
  - intros w1 w2 w3 (E1&?&?) (E2&?&?). split; [by etrans|]. by split; etrans.
Qed.

#[local] Existing Instance quiet_preorder.

Lemma quiet_same_env w w' : quiet w w' → same_env w w'.
Proof. by intros [? _]. Qed.

Section Preserves.
Context (R : World → World → Prop) `{!PreOrder R}.

Lemma preserves_ret {A : Type} (a : A) : preserves R (ret a).
Proof. intros w r w' [= <- <-]. reflexivity. Qed.

Lemma preserves_throw {A : Type} e : preserves R (@throw A e).
Proof. intros w r w' [= <- <-]. reflexivity. Qed.

Lemma preserves_lift {A : Type} (x : Result A) : preserves R (lift x).
Proof. intros w r w' [= <- <-]. reflexivity. Qed.

Lemma preserves_bind {A B : Type} (m : M A) (k : A → M B) :
  preserves R m → (∀ a, preserves R (k a)) → preserves R (bind m k).
Proof.
  intros Hm Hk w r w'. unfold bind.
  destruct (m w) as [[e|a] w1] eqn:Em.
  - intros [= <- <-]. by eapply Hm.
  - intros Ek. etrans; [by eapply Hm | by eapply Hk].
Qed.

Lemma preserves_try_catch {A : Type} (m : M A) (h : JsError → M A) :
  preserves R m → (∀ e, preserves R (h e)) → preserves R (try_catch m h).
Proof.
  intros Hm Hh w r w'. unfold try_catch.
  destruct (m w) as [[e|a] w1] eqn:Em.
  - intros Eh. etrans; [by eapply Hm | by eapply Hh].
  - intros [= <- <-]. by eapply Hm.
Qed.

Lemma preserves_try_finally {A : Type} (m : M A) (f : M unit) :
  preserves R m → preserves R f → preserves R (try_finally m f).
Proof.
  intros Hm Hf w r w'. unfold try_finally.
  destruct (m w) as [r1 w1] eqn:Em.
  destruct (f w1) as [[e|u] w2] eqn:Ef; intros [= <- <-];
    (etrans; [by eapply Hm | by eapply Hf]).
Qed.

Lemma preserves_promise_all {A B : Type} (f : A → M B) xs :
  (∀ x, preserves R (f x)) → preserves R (promise_all f xs).
Proof.
  intros Hf. induction xs as [|x xs IH]; simpl.
  - apply preserves_ret.
  - apply preserves_bind; [done|]. intros y.
    apply preserves_bind; [done|]. intros ys. apply preserves_ret.
Qed.

End Preserves.

Lemma do_log_quiet log msg : preserves quiet (do_log log msg).
Proof. intros w r w' [= <- <-]. by repeat split. Qed.

Lemma emit_quiet e w :
  (∀ t m, e ≠ RunMigration t m) → quiet w (emit e w).
Proof.
  intros He. repeat split. unfold executed. simpl.
  rewrite executed_of_app. destruct e; simpl; try apply app_nil_r.
  by destruct (He tableName migration).
Qed.

Lemma client_connect_quiet : preserves quiet client_connect.
Proof.
  intros w r w'. unfold client_connect.
  destruct (connectError w); intros [= <- <-]; by apply emit_quiet.
Qed.

Lemma client_end_quiet : preserves quiet client_end.
Proof.
  intros w r w'. unfold client_end.
  destruct (endError w); intros [= <- <-]; by apply emit_quiet.
Qed.

Lemma closing_quiet log : preserves quiet (closing log).
Proof.
  apply (preserves_try_catch quiet); [apply client_end_quiet|].
  intros e. apply do_log_quiet.
Qed.

Lemma readDir_quiet directory : preserves quiet (readDir directory).
Proof.
  intros w r w'. unfold readDir.
  destruct (directories (fs w) !! directory); intros [= <- <-]; reflexivity.
Qed.

Lemma get_tableName_quiet dbConfig : preserves quiet (get_tableName dbConfig).
Proof. intros w r w' [= <- <-]. reflexivity. Qed.

Lemma doesTableExist_quiet tableName : preserves quiet (doesTableExist tableName).
Proof. intros w r w' [= <- <-]. by apply emit_quiet. Qed.

Lemma query_select_quiet tableName : preserves quiet (query_select tableName).
Proof. intros w r w' [= <- <-]. by apply emit_quiet. Qed.

Lemma fetchAppliedMigrationFromDB_quiet tableName log :
  preserves quiet (fetchAppliedMigrationFromDB tableName log).
Proof.
  apply (preserves_bind quiet); [apply doesTableExist_quiet|].
  intros [].
  - apply (preserves_bind quiet); [apply do_log_quiet|]. intros _.
    apply (preserves_bind quiet); [apply query_select_quiet|]. intros rows.
    apply (preserves_ret quiet).
  - apply (preserves_bind quiet); [apply do_log_quiet|]. intros _.
    apply (preserves_ret quiet).
Qed.

Lemma logResult_quiet completed log : preserves quiet (logResult completed log).
Proof. unfold logResult. destruct (_ =? _)%nat; apply do_log_quiet. Qed.

Lemma closing_ok log w : ∃ w', closing log w = (inr tt, w') ∧ quiet w w'.
Proof.
  destruct (closing log w) as [r w'] eqn:E. exists w'.
  split; [|by eapply closing_quiet].
  revert E. unfold closing, try_catch, client_end, do_log.
  destruct (endError w); by intros [= <- <-].
Qed.

(** One step of a sequence of awaits whose outcome is known. *)
Ltac mstep E := unfold bind at 1; rewrite E; cbv beta iota.
Ltac mstep_in E H := unfold bind at 1 in H; rewrite E in H; cbv beta iota in H.

(** ** The orchestrator over arbitrary collaborators *)

Section Orchestrator.
Context `{Collaborators}.

Lemma load_quiet directory log config : preserves quiet (load directory log config).
Proof.
  apply (preserves_bind quiet); [apply do_log_quiet|]. intros _.
  apply (preserves_bind quiet); [apply readDir_quiet|]. intros fileNames.
  apply (preserves_bind quiet); [apply do_log_quiet|]. intros _.
  destruct fileNames as [names|]; [|apply (preserves_ret quiet)].
  apply (preserves_bind quiet).
  { apply (preserves_promise_all quiet). intros p w r w' [= <- <-]. reflexivity. }
  intros units.
  apply (preserves_bind quiet); [apply get_tableName_quiet|]. intros t.
  apply (preserves_bind quiet); [apply (preserves_lift quiet)|]. intros boot.
  apply (preserves_ret quiet).
Qed.

Lemma connectAndLoad_quiet dbConfig directory config :
  preserves quiet (connectAndLoad dbConfig directory config).
Proof.
  apply (preserves_bind quiet); [apply do_log_quiet|]. intros _.
  apply (preserves_bind quiet); [apply client_connect_quiet|]. intros _.
  apply (preserves_bind quiet); [apply do_log_quiet|]. intros _.
  apply (preserves_bind quiet); [apply load_quiet|]. intros ms.
  apply (preserves_bind quiet); [apply get_tableName_quiet|]. intros t.
  apply (preserves_bind quiet); [apply fetchAppliedMigrationFromDB_quiet|].
  intros rows. apply (preserves_ret quiet).
Qed.

Lemma client_runMigration_spec tableName m w :
  ∃ w', client_runMigration tableName m w
          = (fst (runMigration tableName m (db w)), w')
    ∧ db w' = snd (runMigration tableName m (db w))
    ∧ trace w' = (trace w ++ [RunMigration tableName m])%list
    ∧ executed w' = (executed w ++ [m])%list
    ∧ same_env w w'.
Proof.
  unfold client_runMigration.
  destruct (runMigration tableName m (db w)) as [r d]. eexists. split; [done|].
  split_and!; [done | done | | by repeat split].
  unfold executed. simpl. by rewrite executed_of_app.
Qed.

Lemma applyMigrations_cons dbConfig m rest completed w :
  applyMigrations dbConfig (m :: rest) completed w
  = match client_runMigration
            (js_to_string (get_property (heap w) (VObject dbConfig) "tableName"))
            m w with
    | (inr result, w1) => applyMigrations dbConfig rest (completed ++ [result]) w1
    | (inl e, w1) => (inl e, w1)
    end.
Proof. reflexivity. Qed.

Lemma applyMigrations_app dbConfig pre post completed w :
  applyMigrations dbConfig (pre ++ post) completed w
  = match applyMigrations dbConfig pre completed w with
    | (inr done_, w1) => applyMigrations dbConfig post done_ w1
    | (inl e, w1) => (inl e, w1)
    end.
Proof.
  revert completed w. induction pre as [|m pre IH]; intros completed w.
  - done.
  - rewrite <- app_comm_cons, !applyMigrations_cons.
    destruct (client_runMigration _ m w) as [[e|r] w1]; [done|]. apply IH.
Qed.

Lemma applyMigrations_ok dbConfig pending completed w out w' :
  applyMigrations dbConfig pending completed w = (inr out, w') →
  ∃ results, out = (completed ++ results)%list
    ∧ List.length results = List.length pending
    ∧ executed w' = (executed w ++ pending)%list
    ∧ same_env w w'.
Proof.
  revert completed w. induction pending as [|m rest IH]; intros completed w.
  - intros [= <- <-]. exists []. rewrite !app_nil_r. by split_and!.
  - rewrite applyMigrations_cons.
    destruct (client_runMigration_spec
                (js_to_string (get_property (heap w) (VObject dbConfig) "tableName"))
                m w) as (w1 & E & _ & _ & Hex & Henv).
    rewrite E. destruct (fst (runMigration _ m (db w))) as [e|r]; [done|].
    intros Hrest. destruct (IH _ _ Hrest) as (results & -> & Hlen & Hex' & Henv').
    exists (r :: results). rewrite <- app_assoc. simpl.
    split_and!; [done | by rewrite Hlen | | by etrans].
    rewrite Hex', Hex, <- app_assoc. done.
Qed.

Lemma applyMigrations_failed dbConfig pending completed w e w' :
  applyMigrations dbConfig pending completed w = (inl e, w') →
  ∃ pre u post w1 results,
    pending = (pre ++ u :: post)%list
    ∧ applyMigrations dbConfig pre completed w = (inr (completed ++ results)%list, w1)
    ∧ client_runMigration
        (js_to_string (get_property (heap w1) (VObject dbConfig) "tableName"))
        u w1 = (inl e, w')
    ∧ executed w' = (executed w ++ pre ++ [u])%list.
Proof.
  revert completed w. induction pending as [|m rest IH]; intros completed w.
  - done.
  - rewrite applyMigrations_cons.
    destruct (client_runMigration _ m w) as [[e1|r] w1] eqn:E.
    + intros [= <- <-]. exists [], m, rest, w, []. rewrite app_nil_r.
      split_and!; [done | done | done | ].
      destruct (client_runMigration_spec
        (js_to_string (get_property (heap w) (VObject dbConfig) "tableName")) m w)
        as (w2 & E2 & _ & _ & Hex & _).
      rewrite E in E2. by injection E2 as _ <-.
    + intros Hrest.
      destruct (IH _ _ Hrest) as (pre & u & post & w2 & results & -> & Hpre & Hu & Hex).
      exists (m :: pre), u, post, w2, (r :: results). split; [done|].
      rewrite applyMigrations_cons, E. rewrite <- app_assoc in Hpre.
      split_and!; [done | done | ]. rewrite Hex.
      destruct (client_runMigration_spec
        (js_to_string (get_property (heap w) (VObject dbConfig) "tableName")) m w)
        as (w3 & E3 & _ & _ & Hex3 & _).
      rewrite E in E3. injection E3 as _ <-. rewrite Hex3, <- !app_assoc. done.
Qed.

Lemma applyMigrations_same_env dbConfig pending completed :
  preserves same_env (applyMigrations dbConfig pending completed).
Proof.
  revert completed. induction pending as [|m rest IH]; intros completed.
  - apply (preserves_ret same_env).
  - intros w r w'. rewrite applyMigrations_cons.
    destruct (client_runMigration_spec
        (js_to_string (get_property (heap w) (VObject dbConfig) "tableName")) m w)
        as (w1 & E & _ & _ & _ & Henv).
    rewrite E. destruct (fst (runMigration _ m (db w))) as [e|x].
    + by intros [= <- <-].
    + intros Hrest. etrans; [done|]. by eapply IH.
Qed.

Lemma bind_inr_inv {A B : Type} (m : M A) (k : A → M B) w b w' :
  bind m k w = (inr b, w') → ∃ a w1, m w = (inr a, w1) ∧ k a w1 = (inr b, w').
Proof.
  unfold bind. destruct (m w) as [[e|a] w1]; [done|]. intros Hk. by exists a, w1.
Qed.

Lemma logResult_ok completed log w :
  ∃ w', logResult completed log w = (inr tt, w') ∧ quiet w w'.
Proof.
  destruct (logResult completed log w) as [r w'] eqn:E. exists w'.
  split; [|by eapply logResult_quiet].
  revert E. unfold logResult, do_log. by destruct (_ =? _)%nat; intros [= <- <-].
Qed.

(** What [runMigrations] does once the units are loaded and the applied
    rows are fetched. *)
Lemma runMigrations_reconciling dbConfig directory config w ms rows w2 :
  connectAndLoad dbConfig directory config w = (inr (ms, rows), w2) →
  ∃ r w3 w4,
    runMigrations dbConfig directory config w = (r, w4) ∧ quiet w3 w4 ∧
    match validateMigrations ms (array_as_record rows) with
    | inl e => r = inl (migrationFailed e) ∧ w3 = w2
    | inr _ =>
        match applyMigrations dbConfig
                (filterMigrations ms (array_as_record rows)) [] w2 with
        | (inl e, w3') => r = inl (migrationFailed e) ∧ w3 = w3'
        | (inr completed, w3') => r = inr completed ∧ w3 = w3'
        end
    end.
Proof.
  unfold connectAndLoad. intros Hload.
  apply bind_inr_inv in Hload as ([] & w0 & E0 & Hload).
  apply bind_inr_inv in Hload as ([] & w1 & E1 & Hload).
  apply bind_inr_inv in Hload as ([] & w1' & E1' & Hload).
  apply bind_inr_inv in Hload as (ms' & wl & El & Hload).
  apply bind_inr_inv in Hload as (t & wt & Et & Hload).
  apply bind_inr_inv in Hload as (rows' & wf & Ef & Hload).
  injection Hload as -> -> ->.
  unfold runMigrations. fold (logger_of config). fold (closing (logger_of config)).
  mstep E0. unfold try_finally, try_catch at 1.
  mstep E1. mstep E1'. mstep El. mstep Et. mstep Ef.
  unfold bind at 1, lift.
  destruct (validateMigrations ms (array_as_record rows)) as [e|[]].
  - unfold throw. destruct (closing_ok (logger_of config) w2) as (wc & -> & Hq).
    by exists (inl (migrationFailed e)), w2, wc.
  - unfold bind at 1.
    destruct (applyMigrations dbConfig _ [] w2) as [[e|completed] w3].
    + unfold throw. destruct (closing_ok (logger_of config) w3) as (w4 & -> & Hq4).
      by exists (inl (migrationFailed e)), w3, w4.
    + unfold bind at 1.
      destruct (logResult_ok completed (logger_of config) w3) as (w3' & -> & Hq3).
      unfold ret. destruct (closing_ok (logger_of config) w3') as (w4 & -> & Hq4).
      exists (inr completed), w3, w4. split_and!; [done| |done|done]. by etrans.
Qed.

(** A failure before the reconciler is reported wrapped, after closing. *)
Lemma runMigrations_not_loaded dbConfig directory config w e w2 :
  connectAndLoad dbConfig directory config w = (inl e, w2) →
  ∃ w4, runMigrations dbConfig directory config w = (inl (migrationFailed e), w4)
        ∧ quiet w2 w4.
Proof.
  intros Hload. unfold connectAndLoad in Hload.
  unfold runMigrations. fold (logger_of config). fold (closing (logger_of config)).
  set (log := logger_of config) in *.
  assert (∀ wx, ∃ w4, (let (r, w0) := closing log wx in
                       match r with
                       | inl e0 => (inl e0, w0)
                       | inr _ => (@inl JsError (list Migration) (migrationFailed e), w0)
                       end) = (inl (migrationFailed e), w4) ∧ quiet wx w4) as Hclose.
  { intros wx. destruct (closing_ok log wx) as (w4 & -> & Hq). by exists w4. }
  destruct (do_log log "Attempting database migration" w) as [[e0|[]] w0] eqn:E0;
    [done|].
  mstep_in E0 Hload. mstep E0. unfold try_finally, try_catch at 1.
  destruct (client_connect w0) as [[e1|[]] w1] eqn:E1; mstep_in E1 Hload; mstep E1.
  { injection Hload as <- <-. apply Hclose. }
  destruct (do_log log "Connected to database" w1) as [[e1'|[]] w1'] eqn:E1';
    [done|].
  mstep_in E1' Hload. mstep E1'.
  destruct (load directory log dbConfig w1') as [[el|ms] wl] eqn:El;
    mstep_in El Hload; mstep El.
  { injection Hload as <- <-. apply Hclose. }
  destruct (get_tableName dbConfig wl) as [[et|t] wt] eqn:Et;
    mstep_in Et Hload; mstep Et.
  { injection Hload as <- <-. apply Hclose. }
  destruct (fetchAppliedMigrationFromDB t log wt) as [[ef|rows] wf] eqn:Ef;
    mstep_in Ef Hload; mstep Ef.
  { injection Hload as <- <-. apply Hclose. }
  done.
Qed.

(** [runMigrations] changes neither the caller's objects nor the files. *)
Lemma runMigrations_same_env dbConfig directory config :
  preserves same_env (runMigrations dbConfig directory config).
Proof.
  intros w r w4 Hrun.
  destruct (connectAndLoad dbConfig directory config w) as [[e|[ms rows]] w2] eqn:E.
  - destruct (runMigrations_not_loaded _ _ _ _ _ _ E) as (w4' & Hrun' & Hq).
    rewrite Hrun in Hrun'. injection Hrun' as _ <-.
    apply quiet_same_env. etrans; [|done]. by eapply connectAndLoad_quiet.
  - destruct (runMigrations_reconciling _ _ _ _ _ _ _ E) as (r' & w3 & w4' & Hrun' & Hq & Hm).
    rewrite Hrun in Hrun'. injection Hrun' as _ <-.
    assert (same_env w w2) as H2.
    { apply quiet_same_env. by eapply connectAndLoad_quiet. }
    assert (same_env w2 w3) as H3.
    { destruct (validateMigrations ms (array_as_record rows)) as [e|[]].
      - destruct Hm as [_ ->]. reflexivity.
      - destruct (applyMigrations dbConfig _ [] w2) as [[e|c] w3'] eqn:Ea;
          destruct Hm as [_ ->]; by eapply applyMigrations_same_env. }
    etrans; [done|]. etrans; [done|]. by apply quiet_same_env.
Qed.

Lemma nonConsecutive_not_hashMismatch f fs :
  nonConsecutiveIdError f ≠ hashMismatchError fs.
Proof. unfold nonConsecutiveIdError, hashMismatchError. simpl. intros [=]. Qed.

Lemma validateMigrations_failed_quiet dbConfig directory config w ms rows w2 e :
  connectAndLoad dbConfig directory config w = (inr (ms, rows), w2) →
  validateMigrations ms (array_as_record rows) = inl e →
  ∃ w', runMigrations dbConfig directory config w = (inl (migrationFailed e), w')
        ∧ quiet w w'.
Proof.
  intros Hload Hv.
  destruct (runMigrations_reconciling _ _ _ _ _ _ _ Hload)
    as (r & w3 & w4 & Hrun & Hq & Hm).
  rewrite Hv in Hm. destruct Hm as [-> ->]. exists w4. split; [done|].
  etrans; [|done]. by eapply connectAndLoad_quiet.
Qed.

(** C1. Ordering check: when some unit does not sit at the position of
    its id, [validateMigrations] raises the non-consecutive-id error that
    names the file of the first such unit, whatever the applied record,
    and a run that loaded these units fails with that error as its cause
    without executing any migration or changing the database; when every
    unit sits at the position of its id, the ordering check finds nothing
    and no such error is raised. *)
Theorem validateMigrations_ordering_check (migrations : list Migration) :
  (∀ (i : nat) u,
      migrations !! i = Some u → Migration.id u ≠ Z.of_nat i →
      ∃ (j : nat) v,
        migrations !! j = Some v ∧ Migration.id v ≠ Z.of_nat j
        ∧ (∀ (k : nat) x, (k < j)%nat → migrations !! k = Some x →
                          Migration.id x = Z.of_nat k)
        ∧ (∀ applied, validateMigrations migrations applied
                      = inl (nonConsecutiveIdError (Migration.fileName v)))
        ∧ (∀ dbConfig directory config w rows w2,
              connectAndLoad dbConfig directory config w
              = (inr (migrations, rows), w2) →
              ∃ w', runMigrations dbConfig directory config w
                    = (inl (migrationFailed
                              (nonConsecutiveIdError (Migration.fileName v))), w')
                    ∧ quiet w w'))
  ∧ ((∀ (i : nat) u, migrations !! i = Some u → Migration.id u = Z.of_nat i) →
     js_find indexNotMatch migrations = None
     ∧ ∀ applied f,
         validateMigrations migrations applied ≠ inl (nonConsecutiveIdError f)).
Proof.
  split.
  - intros i u Hi Hne.
    destruct (first_violation _ _ _ Hi Hne) as (j & v & Hf & Hj & Hv & Hmin).
    exists j, v. split_and!; [done..| |].
    + intros applied. by apply validateMigrations_nonConsecutive.
    + intros dbConfig directory config w rows w2 Hload.
      eapply validateMigrations_failed_quiet; [done|].
      by apply validateMigrations_nonConsecutive.
  - intros Hc. split; [by apply consecutive_find|].
    intros applied f. rewrite (validateMigrations_consecutive _ _ Hc).
    destruct (List.filter _ _) as [|x xs]; [done|].
    intros Hbad.
    apply (nonConsecutive_not_hashMismatch f (List.map Migration.fileName (x :: xs))).
    congruence.
Qed.

Lemma sublist_List_filter {A : Type} (f : A → bool) (l : list A) :
  sublist (List.filter f l) l.
Proof.
  induction l as [|x l IH]; simpl; [constructor|].
  destruct (f x); by constructor.
Qed.

Lemma StronglySorted_List_filter {A : Type} (R : A → A → Prop) (f : A → bool) l :
  StronglySorted R l → StronglySorted R (List.filter f l).
Proof.
  induction 1 as [|x l Hl IH Hx]; simpl; [constructor|].
  destruct (f x); [|done]. constructor; [done|].
  rewrite List.Forall_forall in *. intros y Hy.
  apply List.filter_In in Hy as [Hy _]. by apply Hx.
Qed.

Lemma positions_sorted {A : Type} (key : A → Z) (l : list A) (start : Z) :
  (∀ (k : nat) x, l !! k = Some x → key x = start + Z.of_nat k) →
  StronglySorted (λ a b, key a < key b) l.
Proof.
  revert start. induction l as [|x l IH]; intros start Hc; constructor.
  - apply (IH (start + 1)). intros k u Hk. rewrite (Hc (S k) u Hk). lia.
  - rewrite List.Forall_forall. intros y Hy.
    apply list_elem_of_In, list_elem_of_lookup in Hy as [k Hk].
    rewrite (Hc 0%nat x eq_refl), (Hc (S k) y Hk). lia.
Qed.


Lemma consecutive_from_sorted (l : list Migration) :
  consecutive l → StronglySorted (λ a b, Migration.id a < Migration.id b) l.
Proof.
  intros Hc. apply (positions_sorted Migration.id l 0).
  intros k u Hk. by rewrite (Hc k u Hk).
Qed.

Lemma validateMigrations_ok_consecutive migrations applied :
  validateMigrations migrations applied = inr tt → consecutive migrations.
Proof.
  intros Hv. apply consecutive_find.
  destruct (js_find indexNotMatch migrations) eqn:Hf; [|done].
  by rewrite (validateMigrations_nonConsecutive _ _ _ Hf) in Hv.
Qed.

Lemma notAppliedMigration_true applied u :
  notAppliedMigration applied u = true ↔ applied !! Migration.id u = None.
Proof. unfold notAppliedMigration. by destruct (applied !! _). Qed.

Lemma filterMigrations_all_applied migrations applied :
  (∀ u, In u migrations → is_Some (applied !! Migration.id u)) →
  filterMigrations migrations applied = [].
Proof.
  intros Hall. unfold filterMigrations.
  induction migrations as [|u l IH]; simpl; [done|].
  destruct (notAppliedMigration applied u) eqn:Hn.
  - apply notAppliedMigration_true in Hn.
    destruct (Hall u (or_introl eq_refl)) as [r Hr]. congruence.
  - apply IH. intros v Hv. apply Hall. by right.
Qed.

Lemma List_filter_nil {A : Type} (f : A → bool) (l : list A) :
  (∀ x, In x l → f x = false) → List.filter f l = [].
Proof.
  induction l as [|x l IH]; simpl; intros Hall; [done|].
  rewrite (Hall x (or_introl eq_refl)). apply IH. intros y Hy. apply Hall. by right.
Qed.

Lemma invalidHash_filter_nil migrations applied :
  (∀ u, In u migrations → ¬ hash_differs applied u) →
  List.filter (invalidHash applied) migrations = [].
Proof.
  intros Hno. apply List_filter_nil. intros u Hu.
  destruct (invalidHash applied u) eqn:E; [|done].
  apply invalidHash_true in E. by destruct (Hno u Hu).
Qed.

(** C2 (as amended). Integrity check: for every list of units that passes
    the ordering check and every applied record, the offending units are
    all the units whose id is recorded with another hash, in the order of
    the list; when there is one, [validateMigrations] raises the single
    hash-mismatch error that lists the file names of all of them, and a
    run that loaded these units fails with it as its cause without
    executing any migration or changing the database; when there is none,
    validation passes. For every list of units, if no recorded hash
    differs, no hash-mismatch error is raised. *)
Theorem validateMigrations_integrity_check (migrations : list Migration)
    (applied : gmap Z Row) :
  ((∀ (i : nat) u, migrations !! i = Some u → Migration.id u = Z.of_nat i) →
   ∃ offending,
     (∀ u, In u offending ↔ In u migrations ∧ hash_differs applied u)
     ∧ sublist offending migrations
     ∧ ((∃ u, In u migrations ∧ hash_differs applied u) →
        validateMigrations migrations applied
        = inl (hashMismatchError (List.map Migration.fileName offending))
        ∧ ∀ dbConfig directory config w rows w2,
            applied = array_as_record rows →
            connectAndLoad dbConfig directory config w
            = (inr (migrations, rows), w2) →
            ∃ w', runMigrations dbConfig directory config w
                  = (inl (migrationFailed
                            (hashMismatchError
                               (List.map Migration.fileName offending))), w')
                  ∧ quiet w w')
     ∧ ((∀ u, In u migrations → ¬ hash_differs applied u) →
        validateMigrations migrations applied = inr tt))
  ∧ ((∀ u, In u migrations → ¬ hash_differs applied u) →
     ∀ fileNames,
       validateMigrations migrations applied ≠ inl (hashMismatchError fileNames)).
Proof.
  split.
  - intros Hc. exists (List.filter (invalidHash applied) migrations).
    assert (∀ u, In u (List.filter (invalidHash applied) migrations)
                 ↔ In u migrations ∧ hash_differs applied u) as Hin.
    { intros u. by rewrite List.filter_In, invalidHash_true. }
    split_and!; [done|apply sublist_List_filter| |].
    + intros (u & Hu & Hd).
      assert (validateMigrations migrations applied
              = inl (hashMismatchError
                       (List.map Migration.fileName
                          (List.filter (invalidHash applied) migrations)))) as Hv.
      { rewrite (validateMigrations_consecutive _ _ Hc).
        destruct (List.filter (invalidHash applied) migrations) as [|x xs] eqn:Ef;
          [|done].
        by destruct (proj2 (Hin u) (conj Hu Hd)). }
      split; [done|]. intros dbConfig directory config w rows w2 -> Hload.
      by eapply validateMigrations_failed_quiet.
    + intros Hno. rewrite (validateMigrations_consecutive _ _ Hc).
      by rewrite invalidHash_filter_nil.
  - intros Hno fileNames. unfold validateMigrations.
    destruct (js_find indexNotMatch migrations) as [v|].
    + intros Hbad.
      apply (nonConsecutive_not_hashMismatch (Migration.fileName v) fileNames).
      congruence.
    + by rewrite invalidHash_filter_nil.
Qed.

(** C3. Delta computation: for every list of units that validates against
    the applied record, [filterMigrations] returns exactly the units whose
    id is absent from the record, in the order of the list, which is
    strictly ascending in id; when every unit's id is present the delta is
    empty, and a run that loaded these units against such a ledger returns
    the empty list, executes no migration and leaves the database as it
    is. *)
Theorem filterMigrations_delta (migrations : list Migration)
    (applied : gmap Z Row) :
  validateMigrations migrations applied = inr tt →
  (∀ u, In u (filterMigrations migrations applied)
        ↔ In u migrations ∧ applied !! Migration.id u = None)
  ∧ sublist (filterMigrations migrations applied) migrations
  ∧ StronglySorted (λ a b, Migration.id a < Migration.id b)
      (filterMigrations migrations applied)
  ∧ ((∀ u, In u migrations → is_Some (applied !! Migration.id u)) →
     filterMigrations migrations applied = []
     ∧ ∀ dbConfig directory config w rows w2,
         applied = array_as_record rows →
         connectAndLoad dbConfig directory config w
         = (inr (migrations, rows), w2) →
         ∃ w', runMigrations dbConfig directory config w = (inr [], w')
               ∧ quiet w w').
Proof.
  intros Hv. split_and!.
  - intros u. unfold filterMigrations.
    by rewrite List.filter_In, notAppliedMigration_true.
  - apply sublist_List_filter.
  - apply StronglySorted_List_filter.
    apply consecutive_from_sorted.
    by eapply validateMigrations_ok_consecutive.
  - intros Hall. pose proof (filterMigrations_all_applied _ _ Hall) as Hnil.
    split; [done|]. intros dbConfig directory config w rows w2 -> Hload.
    destruct (runMigrations_reconciling _ _ _ _ _ _ _ Hload)
      as (r & w3 & w4 & Hrun & Hq & Hm).
    rewrite Hv, Hnil in Hm. simpl in Hm. destruct Hm as [-> ->].
    exists w4. split; [done|]. etrans; [|done]. by eapply connectAndLoad_quiet.
Qed.

(** C4. Fail-fast: when the units before [u] in the pending sequence are
    applied and applying [u] fails, the loop stops with that failure: the
    units handed to the executor are exactly those up to [u], none after
    it, and the database is the one the failed step left, with the earlier
    units' effects in place. The run then raises the single wrapped error
    whose cause is the original failure, and returns no list. In general a
    run yields either that wrapped error or one result for every pending
    unit, all of them executed: never a partial list. *)
Theorem applyMigrations_fail_fast (dbConfig : nat) (pre : list Migration)
    (u : Migration) (post : list Migration) (w : World)
    (results : list Migration) (w1 : World) (e : JsError) (w2 : World) :
  applyMigrations dbConfig pre [] w = (inr results, w1) →
  client_runMigration
    (js_to_string (get_property (heap w1) (VObject dbConfig) "tableName")) u w1
  = (inl e, w2) →
  applyMigrations dbConfig (pre ++ u :: post) [] w = (inl e, w2)
  ∧ executed w2 = (executed w ++ pre ++ [u])%list
  ∧ db w2
    = snd (runMigration
             (js_to_string (get_property (heap w1) (VObject dbConfig) "tableName"))
             u (db w1))
  ∧ (∀ directory config w0 ms rows,
        connectAndLoad dbConfig directory config w0 = (inr (ms, rows), w) →
        validateMigrations ms (array_as_record rows) = inr tt →
        filterMigrations ms (array_as_record rows) = (pre ++ u :: post)%list →
        ∃ w', runMigrations dbConfig directory config w0
              = (inl (migrationFailed e), w')
              ∧ cause (migrationFailed e) = Some e
              ∧ executed w' = (executed w0 ++ pre ++ [u])%list
              ∧ db w' = db w2)
  ∧ (∀ directory config w0 r w',
        runMigrations dbConfig directory config w0 = (r, w') →
        match r with
        | inl err => ∃ e0, err = migrationFailed e0 ∧ cause err = Some e0
        | inr completed =>
            ∃ ms rows wl,
              connectAndLoad dbConfig directory config w0 = (inr (ms, rows), wl)
              ∧ validateMigrations ms (array_as_record rows) = inr tt
              ∧ List.length completed
                = List.length (filterMigrations ms (array_as_record rows))
              ∧ executed w'
                = (executed w0 ++ filterMigrations ms (array_as_record rows))%list
        end).
Proof.
  intros Hpre Hu.
  assert (applyMigrations dbConfig (pre ++ u :: post) [] w = (inl e, w2)) as Hloop.
  { by rewrite applyMigrations_app, Hpre, applyMigrations_cons, Hu. }
  destruct (applyMigrations_ok _ _ _ _ _ _ Hpre) as (res & _ & _ & Hex1 & _).
  destruct (client_runMigration_spec
              (js_to_string (get_property (heap w1) (VObject dbConfig) "tableName"))
              u w1) as (w2' & E2 & Hdb & _ & Hex2 & _).
  rewrite Hu in E2. injection E2 as _ <-.
  assert (executed w2 = (executed w ++ pre ++ [u])%list) as Hex.
  { by rewrite Hex2, Hex1, <- app_assoc. }
  split_and!; [done..| |].
  - intros directory config w0 ms rows Hload Hv Hf.
    destruct (runMigrations_reconciling _ _ _ _ _ _ _ Hload)
      as (r & w3 & w4 & Hrun & Hq & Hm).
    rewrite Hv, Hf, Hloop in Hm. destruct Hm as [-> ->].
    exists w4. destruct Hq as (_ & Hqdb & Hqex).
    split_and!; [done|done| |done].
    rewrite Hqex, Hex.
    by destruct (connectAndLoad_quiet _ _ _ _ _ _ Hload) as (_ & _ & ->).
  - intros directory config w0 r w' Hrun.
    destruct (connectAndLoad dbConfig directory config w0)
      as [[e0|[ms rows]] wl] eqn:Hload.
    + destruct (runMigrations_not_loaded _ _ _ _ _ _ Hload) as (w4 & Hrun' & _).
      rewrite Hrun in Hrun'. injection Hrun' as -> _. by exists e0.
    + destruct (runMigrations_reconciling _ _ _ _ _ _ _ Hload)
        as (r' & w3 & w4 & Hrun' & Hq & Hm).
      rewrite Hrun in Hrun'. injection Hrun' as <- <-.
      destruct (validateMigrations ms (array_as_record rows)) as [e0|[]] eqn:Hv.
      { destruct Hm as [-> _]. by exists e0. }
      destruct (applyMigrations dbConfig _ [] wl) as [[e0|completed] w3'] eqn:Ha;
        destruct Hm as [-> ->].
      { by exists e0. }
      destruct (applyMigrations_ok _ _ _ _ _ _ Ha) as (res' & Hc & Hlen & Hex' & _).
      simpl in Hc. subst res'. exists ms, rows, wl.
      split_and!; [done..|].
      destruct Hq as (_ & _ & ->). rewrite Hex'.
      by destruct (connectAndLoad_quiet _ _ _ _ _ _ Hload) as (_ & _ & ->).
Qed.

(** C9 (as amended). When opening the session fails, the run raises the
    wrapped error whose cause is the connection error. Nothing is loaded,
    queried or executed: the database is untouched, the session sees the
    failed [connect] and nothing else but the close, and the logger is
    handed the opening line of the run and neither the line that reports
    the connection nor any line of the loader. The session is still
    closed: after the failed [connect] the client's [end] is called once;
    when that close fails too, its error is handed to the logger and not
    raised. *)
Theorem runMigrations_connect_failure (dbConfig : nat) (directory : string)
    (config : Config) (w : World) (e : JsError) :
  connectError w = Some e →
  ∃ w', runMigrations dbConfig directory config w = (inl (migrationFailed e), w')
        ∧ message (migrationFailed e) = "Migration failed. Reason: " +:+ message e
        ∧ cause (migrationFailed e) = Some e
        ∧ trace w' = (trace w ++ [ClientConnect; ClientEnd])%list
        ∧ quiet w w'
        ∧ console w'
          = match endError w with
            | Some e' =>
                logger_of config ("Error closing the connetion: " +:+ message e')
                  (logger_of config "Attempting database migration" (console w))
            | None => logger_of config "Attempting database migration" (console w)
            end.
Proof.
  intros Hc.
  destruct (runMigrations dbConfig directory config w) as [r w'] eqn:Hrun.
  exists w'. revert Hrun.
  unfold runMigrations, bind, try_finally, try_catch, throw, client_connect,
    client_end, do_log, emit, with_console.
  simpl. rewrite Hc.
  destruct (endError w) as [e'|] eqn:He; intros [= <- <-]; simpl;
    rewrite <- app_assoc; (split_and!; [done | done | done | done | | done]);
    unfold quiet, same_env, executed; simpl;
    rewrite !executed_of_app; simpl; rewrite !app_nil_r;
    repeat split; congruence.
Qed.

Lemma valid_dbConfig_passes (h : Heap) (ref : nat) (o : JsObject) :
  h !! ref = Some o → valid_dbConfig o → bad_dbConfig h (VObject ref) = false.
Proof.
  intros Hh ((?&H1) & (?&H2) & (?&H3) & (?&H4) & (?&H5)).
  unfold bad_dbConfig, get_property. by rewrite Hh, H1, H2, H3, H4, H5.
Qed.

(** C10. For every caller-owned configuration object with the required
    fields of the right types: when its [tableName] reads as undefined,
    [migrate] stores the default name in that same object before it runs
    the migrations, the object keeps that value afterwards, and every
    other field and every other object is as before; when [tableName] is
    defined, the caller's heap is not modified. *)
Theorem migrate_defaults_tableName (ref : nat) (o : JsObject)
    (directory : string) (config : option Config) (w : World) :
  heap w !! ref = Some o →
  valid_dbConfig o →
  (get_property (heap w) (VObject ref) "tableName" = VUndefined →
   migrate (VObject ref) (VString directory) config w
   = runMigrations ref directory (default {| logger := None |} config)
       (with_heap (<[ref := <["tableName" := VString "migrations"]> o]> (heap w)) w)
   ∧ heap (snd (migrate (VObject ref) (VString directory) config w))
     = <[ref := <["tableName" := VString "migrations"]> o]> (heap w)
   ∧ get_property (heap (snd (migrate (VObject ref) (VString directory) config w)))
       (VObject ref) "tableName" = VString "migrations"
   ∧ (∀ field, field ≠ "tableName" →
        get_property (heap (snd (migrate (VObject ref) (VString directory) config w)))
          (VObject ref) field
        = get_property (heap w) (VObject ref) field)
   ∧ (∀ other, other ≠ ref →
        heap (snd (migrate (VObject ref) (VString directory) config w)) !! other
        = heap w !! other))
  ∧ (get_property (heap w) (VObject ref) "tableName" ≠ VUndefined →
     migrate (VObject ref) (VString directory) config w
     = runMigrations ref directory (default {| logger := None |} config) w
     ∧ heap (snd (migrate (VObject ref) (VString directory) config w)) = heap w).
Proof.
  intros Hh Hvalid. pose proof (valid_dbConfig_passes _ _ _ Hh Hvalid) as Hok.
  split.
  - intros Hundef.
    assert (migrate (VObject ref) (VString directory) config w
            = runMigrations ref directory (default {| logger := None |} config)
                (with_heap (<[ref := <["tableName" := VString "migrations"]> o]> (heap w)) w))
      as Hm.
    { unfold migrate. rewrite Hok, Hundef. simpl.
      unfold set_property. by rewrite Hh. }
    assert (heap (snd (migrate (VObject ref) (VString directory) config w))
            = <[ref := <["tableName" := VString "migrations"]> o]> (heap w)) as Hheap.
    { rewrite Hm.
      destruct (runMigrations ref directory _ _) as [r w'] eqn:Hrun. simpl.
      by destruct (runMigrations_same_env _ _ _ _ _ _ Hrun) as (-> & _). }
    split_and!; [done..| | |].
    + rewrite Hheap. unfold get_property.
      by rewrite lookup_insert_eq, lookup_insert_eq.
    + intros field Hne. rewrite Hheap. unfold get_property.
      by rewrite lookup_insert_eq, Hh, lookup_insert_ne.
    + intros other Hne. rewrite Hheap. by rewrite lookup_insert_ne.
  - intros Hdef.
    assert (migrate (VObject ref) (VString directory) config w
            = runMigrations ref directory (default {| logger := None |} config) w)
      as Hm.
    { unfold migrate. rewrite Hok.
      destruct (get_property (heap w) (VObject ref) "tableName"); done. }
    split; [done|]. rewrite Hm.
    destruct (runMigrations ref directory _ w) as [r w'] eqn:Hrun. simpl.
    by destruct (runMigrations_same_env _ _ _ _ _ _ Hrun) as (-> & _).
Qed.

End Orchestrator.

(** ** Sorting by id *)

Lemma insert_by_Permutation {A : Type} (key : A → Z) (x : A) (l : list A) :
  insert_by key x l ≡ₚ x :: l.
Proof.
  induction l as [|y l IH]; simpl; [done|].
  destruct (Z.leb (key x) (key y)); [done|].
  rewrite IH. apply perm_swap.
Qed.

Lemma sort_by_Permutation {A : Type} (key : A → Z) (l : list A) :
  sort_by key l ≡ₚ l.
Proof.
  induction l as [|x l IH]; simpl; [done|].
  by rewrite insert_by_Permutation, IH.
Qed.

Lemma insert_by_sorted {A : Type} (key : A → Z) (x : A) (l : list A) :
  StronglySorted (λ a b, key a ≤ key b) l →
  StronglySorted (λ a b, key a ≤ key b) (insert_by key x l).
Proof.
  induction 1 as [|y l Hl IH Hy]; simpl.
  - repeat constructor.
  - destruct (Z.leb (key x) (key y)) eqn:E.
    + apply Z.leb_le in E. constructor; [by constructor|].
      constructor; [done|].
      rewrite List.Forall_forall in *. intros z Hz. specialize (Hy z Hz).
      simpl in Hy. lia.
    + apply Z.leb_gt in E. constructor; [done|].
      rewrite List.Forall_forall in *. intros z Hz.
      apply list_elem_of_In in Hz. rewrite insert_by_Permutation in Hz.
      apply list_elem_of_In in Hz. destruct Hz as [<-|Hz]; [lia|by apply Hy].
Qed.

Lemma sort_by_sorted {A : Type} (key : A → Z) (l : list A) :
  StronglySorted (λ a b, key a ≤ key b) (sort_by key l).
Proof.
  induction l as [|x l IH]; simpl; [constructor|]. by apply insert_by_sorted.
Qed.


(** ** The ledger reader *)

Lemma table_exists_spec (d : Database) (tableName : string) :
  table_exists d tableName = true
  ↔ ∃ c, In c (pg_class d) ∧ relname c = tableName ∧ relkind c = "r"%char.
Proof.
  unfold table_exists, select_exists. simpl. rewrite List.existsb_exists.
  split; intros (c & Hc & Hp); exists c; (split; [done|]).
  - apply andb_true_iff in Hp as [Hn Hk].
    by apply String.eqb_eq in Hn; apply Ascii.eqb_eq in Hk.
  - destruct Hp as [Hn Hk]. apply andb_true_iff.
    by split; [apply String.eqb_eq|apply Ascii.eqb_eq].
Qed.

(** C8 (as amended). The existence of the ledger table is decided by one
    lookup in the catalog [pg_catalog.pg_class], keyed by the table name
    and the ordinary-table kind only: it answers true exactly when some
    relation of that name and of kind [r] exists, in whatever schema; a
    relation of that name of another kind does not count. *)
Theorem doesTableExist_catalog_lookup (tableName : string) (w : World) :
  ∃ b, doesTableExist tableName w = (inr b, emit (QueryTableExists tableName) w)
       ∧ (b = true ↔ ∃ c, In c (pg_class (db w)) ∧ relname c = tableName
                          ∧ relkind c = "r"%char).
Proof.
  exists (table_exists (db w) tableName). split; [done|]. apply table_exists_spec.
Qed.

Lemma fetch_absent tableName log w :
  table_exists (db w) tableName = false →
  ∃ w', fetchAppliedMigrationFromDB tableName log w = (inr [], w') ∧ quiet w w'.
Proof.
  intros Hex.
  destruct (fetchAppliedMigrationFromDB tableName log w) as [r w'] eqn:E.
  exists w'. split; [|by eapply fetchAppliedMigrationFromDB_quiet].
  revert E. unfold fetchAppliedMigrationFromDB, bind, doesTableExist.
  fold (table_exists (db w) tableName). rewrite Hex.
  unfold do_log, ret. by intros [= <- <-].
Qed.


Lemma fetch_failed tableName log w e :
  table_exists (db w) tableName = true →
  from_rows (db w) tableName = inl e →
  ∃ w', fetchAppliedMigrationFromDB tableName log w = (inl e, w') ∧ quiet w w'.
Proof.
  intros Hex Hl.
  destruct (fetchAppliedMigrationFromDB tableName log w) as [r w'] eqn:E.
  exists w'. split; [|by eapply fetchAppliedMigrationFromDB_quiet].
  revert E. unfold fetchAppliedMigrationFromDB, bind, doesTableExist.
  fold (table_exists (db w) tableName). rewrite Hex.
  unfold do_log, ret, query_select, select_all_order_by_id. simpl.
  rewrite Hl. by intros [= <- <-].
Qed.


Lemma from_rows_undefined (d : Database) (tableName name : string) :
  unquoted_name tableName = Some name →
  resolve d name = None →
  from_rows d tableName = inl (undefined_table name).
Proof.
  intros Hn Hr. unfold from_rows. by rewrite Hn, Hr.
Qed.


Lemma array_as_record_lookup (rows : list Row) (i : nat) :
  array_as_record rows !! Z.of_nat i = rows !! i.
Proof.
  unfold array_as_record. rewrite lookup_map_seqZ_0 by lia.
  by rewrite Nat2Z.id.
Qed.



(** ** The set loader *)

Lemma match_from_cons (c : ascii) (rest : string) :
  match_from (String c rest) = match_here (String c rest) || match_from rest.
Proof. reflexivity. Qed.


Lemma isValidFile_match_from (fileName : string) :
  isValidFile fileName = match_from fileName.
Proof.
  unfold isValidFile, RegExp_test. simpl.
  by destruct (match_from fileName).
Qed.


Lemma string_app_cons (x : ascii) (a b : string) :
  String x a +:+ b = String x (a +:+ b).
Proof. reflexivity. Qed.

Lemma string_app_assoc (a b c : string) : (a +:+ b) +:+ c = a +:+ (b +:+ c).
Proof.
  induction a as [|x a IH]; [done|]. by rewrite !string_app_cons, IH.
Qed.





Lemma promise_all_loaded `{Collaborators} (paths : list string)
    (units : list Migration) (w : World) :
  Forall2 (λ p u, loadMigrationFile p (fs w) = inr u) paths units →
  promise_all (λ p w0, (loadMigrationFile p (fs w0), w0)) paths w = (inr units, w).
Proof.
  induction 1 as [|p u paths units Hp _ IH]; simpl; [done|].
  unfold bind at 1. rewrite Hp. unfold bind at 1. by rewrite IH.
Qed.

Lemma load_loaded `{Collaborators} (directory : string) (log : Logger)
    (config : nat) (w : World) (names : list string) (units : list Migration)
    (bootstrap : Migration) :
  directories (fs w) !! directory = Some names →
  Forall2 (λ p u, loadMigrationFile p (fs w) = inr u)
    (List.filter isValidFile (List.map (path_resolve directory) names)) units →
  loadRaw bootstrapFileName
    (createTableSql (js_to_string
                       (get_property (heap w) (VObject config) "tableName")))
  = inr bootstrap →
  ∃ w', load directory log config w
        = (inr (sort_by Migration.id (units ++ [bootstrap])), w')
        ∧ quiet w w'.
Proof.
  intros Hdir Hunits Hboot.
  destruct (load directory log config w) as [r w'] eqn:E.
  exists w'. split; [|by eapply load_quiet].
  revert E. unfold load.
  unfold bind at 1. unfold do_log at 1. cbv beta iota.
  unfold bind at 1. unfold readDir. simpl fs. rewrite Hdir.
  unfold bind at 1. unfold do_log at 1. cbv beta iota.
  unfold bind at 1.
  rewrite (promise_all_loaded _ units) by exact Hunits.
  unfold bind at 1, get_tableName. simpl heap.
  unfold bind at 1, lift. rewrite Hboot. unfold ret. by intros [= <- <-].
Qed.

Lemma connectAndLoad_loaded `{Collaborators} (dbConfig : nat)
    (directory : string) (config : Config) (w : World) (names : list string)
    (units : list Migration) (bootstrap : Migration) (rows : list Row) :
  connectError w = None →
  directories (fs w) !! directory = Some names →
  Forall2 (λ p u, loadMigrationFile p (fs w) = inr u)
    (List.filter isValidFile (List.map (path_resolve directory) names)) units →
  loadRaw bootstrapFileName
    (createTableSql (js_to_string
                       (get_property (heap w) (VObject dbConfig) "tableName")))
  = inr bootstrap →
  (∀ w1, quiet w w1 →
         ∃ w2, fetchAppliedMigrationFromDB
                 (js_to_string (get_property (heap w) (VObject dbConfig) "tableName"))
                 (logger_of config) w1 = (inr rows, w2)) →
  ∃ w2, connectAndLoad dbConfig directory config w
        = (inr (sort_by Migration.id (units ++ [bootstrap]), rows), w2)
        ∧ quiet w w2.
Proof.
  intros Hc Hdir Hunits Hboot Hfetch.
  destruct (connectAndLoad dbConfig directory config w) as [r w2] eqn:E.
  exists w2. split; [|by eapply connectAndLoad_quiet].
  revert E. unfold connectAndLoad.
  unfold bind at 1. unfold do_log at 1. cbv beta iota.
  unfold bind at 1. unfold client_connect. simpl connectError. rewrite Hc.
  unfold bind at 1. unfold do_log at 1. cbv beta iota.
  set (w1 := with_console _ (emit ClientConnect _)).
  assert (quiet w w1) as Hq1.
  { subst w1. repeat split. unfold executed. simpl.
    rewrite executed_of_app. simpl. apply app_nil_r. }
  destruct (load_loaded directory (logger_of config) dbConfig w1 names units
              bootstrap Hdir Hunits Hboot) as (wl & El & Hql).
  mstep El. unfold bind at 1, get_tableName. cbv beta iota.
  assert (quiet w wl) as Hqw by (by etrans).
  destruct Hql as ((Hheap & _) & _). rewrite Hheap. simpl heap.
  destruct (Hfetch wl Hqw) as (wf & Ef). mstep Ef.
  unfold ret. by intros [= <- <-].
Qed.

(** ** The database under the spec-modelled executor *)

Lemma find_snoc_None {A : Type} (f : A → bool) (l : list A) (x : A) :
  List.find f l = None → List.find f (l ++ [x]) = if f x then Some x else None.
Proof.
  induction l as [|y l IH]; simpl; [done|].
  destruct (f y); [done|]. apply IH.
Qed.

Lemma find_map_stable {A : Type} (f : A → bool) (g : A → A) (l : list A) :
  (∀ x, f (g x) = f x) → List.find f (List.map g l) = g <$> List.find f l.
Proof.
  intros Hfg. induction l as [|y l IH]; simpl; [done|].
  rewrite Hfg. by destruct (f y).
Qed.

Lemma existsb_map_stable {A : Type} (f : A → bool) (g : A → A) (l : list A) :
  (∀ x, f (g x) = f x) → existsb f (List.map g l) = existsb f l.
Proof.
  intros Hfg. induction l as [|y l IH]; simpl; [done|]. by rewrite Hfg, IH.
Qed.

Lemma matches_self (d : Database) (tableName : string) :
  matches d tableName
    {| relname := tableName; relnamespace := current_schema d;
       relkind := "r"; relrows := [] |} = true.
Proof. unfold matches. simpl. by rewrite !String.eqb_refl. Qed.

Lemma create_table_fresh (tableName : string) (d : Database) :
  resolve d tableName = None →
  pg_class (create_table_if_not_exists tableName d)
  = (pg_class d ++ [{| relname := tableName; relnamespace := current_schema d;
                       relkind := "r"; relrows := [] |}])%list
  ∧ ledger (create_table_if_not_exists tableName d) tableName = Some []
  ∧ table_exists (create_table_if_not_exists tableName d) tableName = true.
Proof.
  intros Hr. unfold ledger, create_table_if_not_exists. rewrite Hr.
  split_and!; [done| |].
  - unfold resolve in *. simpl.
    rewrite (find_snoc_None _ _ _ Hr).
    change (matches _ tableName ?c) with (matches d tableName c).
    by rewrite matches_self.
  - apply table_exists_spec.
    exists {| relname := tableName; relnamespace := current_schema d;
              relkind := "r"; relrows := [] |}.
    split_and!; [|done..]. simpl. apply in_or_app. right. by left.
Qed.

Lemma create_table_present (tableName : string) (d : Database) (c : Relation) :
  resolve d tableName = Some c → create_table_if_not_exists tableName d = d.
Proof. intros Hr. unfold create_table_if_not_exists. by rewrite Hr. Qed.

Lemma insert_row_fresh (tableName : string) (m : Migration) (d : Database)
    (stored : list Row) :
  ledger d tableName = Some stored →
  (∀ r, In r stored → Row.id r ≠ Migration.id m ∧ Row.name r ≠ Migration.name m) →
  ∃ d', insert_row tableName m d = inr d'
        ∧ ledger d' tableName = Some (stored ++ [ledger_row m (clock d)])%list
        ∧ table_exists d' tableName = table_exists d tableName.
Proof.
  unfold ledger, insert_row. destruct (resolve d tableName) as [c|] eqn:Hr; [|done].
  destruct (Ascii.eqb (relkind c) "r") eqn:Hk; [|done].
  intros [= <-] Hfresh.
  assert (existsb (λ r, Z.eqb (Row.id r) (Migration.id m)) (relrows c)
          || existsb (λ r, String.eqb (Row.name r) (Migration.name m)) (relrows c)
          = false) as ->.
  { apply orb_false_iff. split; apply not_true_is_false; intros He;
      apply List.existsb_exists in He as (r & Hin & Heq);
      destruct (Hfresh r Hin) as [Hid Hname].
    - by apply Z.eqb_eq in Heq.
    - by apply String.eqb_eq in Heq. }
  eexists. split; [done|]. split.
  - unfold resolve in *. cbn [pg_class current_schema].
    change (matches ?d' tableName) with (matches d tableName).
    rewrite find_map_stable.
    + rewrite Hr. simpl.
      apply List.find_some in Hr as [_ Hm]. rewrite Hm. simpl. by rewrite Hk.
    + intros x. by destruct (matches d tableName x) eqn:Hx.
  - unfold table_exists, select_exists. cbn [pg_class].
    rewrite existsb_map_stable; [done|].
    intros x. by destruct (matches d tableName x).
Qed.

(** ** The statement of the bootstrap unit *)

Lemma string_app_nil_r (a : string) : a +:+ EmptyString = a.
Proof. induction a as [|x a IH]; [done|]. by rewrite string_app_cons, IH. Qed.

(** A quotable name is read back as it is spelled. *)
Lemma lex_quoted (name : string) :
  ∀ acc out rest,
    all_chars is_quotable_char name = true →
    lex (InQuoted acc) out (name +:+ String "034" rest)
    = lex InText (TQuoted (acc +:+ name) :: out) rest.
Proof.
  induction name as [|c name IH]; intros acc out rest Hq.
  - change (EmptyString +:+ ?x) with x. simpl. by rewrite string_app_nil_r.
  - simpl in Hq. apply andb_true_iff in Hq as [Hc Hq].
    apply andb_true_iff in Hc as [Hc _]. apply negb_true_iff in Hc.
    rewrite string_app_cons. simpl. rewrite Hc, IH by done.
    unfold snoc. by rewrite string_app_assoc.
Qed.

Lemma lex_bootstrap_prefix (tail : string) :
  lex InText [] ("CREATE TABLE IF NOT EXISTS " +:+ dquote +:+ tail)
  = lex (InQuoted EmptyString)
      [TWord "exists"; TWord "not"; TWord "if"; TWord "table"; TWord "create"] tail.
Proof. reflexivity. Qed.

(** The body of the bootstrap unit spells the creation of the ledger
    table under the configured name. *)
Lemma parse_bootstrap (tableName : string) :
  is_quotable tableName = true →
  parse_create_table (createTableSql tableName) = Some (bootstrapStatement tableName).
Proof.
  intros Hq. unfold is_quotable in Hq. apply andb_true_iff in Hq as [_ Hq].
  unfold parse_create_table, createTableSql.
  rewrite lex_bootstrap_prefix.
  change (dquote +:+ ?x) with (String "034" x).
  by rewrite lex_quoted.
Qed.

Lemma all_chars_impl (p q : ascii → bool) (s : string) :
  (∀ c, p c = true → q c = true) → all_chars p s = true → all_chars q s = true.
Proof.
  intros Hpq. induction s as [|c s IH]; simpl; [done|].
  intros [Hc Hs]%andb_true_iff. by rewrite (Hpq c Hc), IH.
Qed.

Lemma is_word_char_quotable (c : ascii) :
  is_word_char c = true → is_quotable_char c = true.
Proof. destruct c as [[] [] [] [] [] [] [] []]; by vm_compute. Qed.

(** An identifier can be written between double quotes. *)
Lemma is_identifier_quotable (tableName : string) :
  is_identifier tableName = true → is_quotable tableName = true.
Proof.
  unfold is_identifier, is_quotable.
  destruct tableName as [|c rest]; [done|].
  rewrite !andb_true_iff. intros [[[[_ Hw] Hlen] _] _].
  split_and!; [done|done|].
  by apply (all_chars_impl _ _ _ is_word_char_quotable).
Qed.


(** ** The run over the spec-modelled collaborators *)

Section SpecModel.
Context `{Primitives}.

Lemma loadRaw_bootstrap (tableName : string) :
  loadRaw_spec bootstrapFileName (createTableSql tableName)
  = inr (bootstrapUnit tableName).
Proof. reflexivity. Qed.


(** The server executes the bootstrap body as the statement it spells. *)
Lemma server_exec_bootstrap (tableName : string) (d : Database) :
  is_quotable tableName = true →
  server_exec (createTableSql tableName) d
  = inr (create_table_if_not_exists tableName d).
Proof.
  intros Hq. unfold server_exec. rewrite parse_bootstrap by done.
  cbn [bootstrapStatement if_not_exists columns table_name andb].
  by rewrite bool_decide_eq_true_2, Hq.
Qed.

Lemma runMigration_bootstrap (tableName : string) (w : World) :
  is_quotable tableName = true →
  resolve (db w) tableName = None →
  ∃ w' at_,
    client_runMigration tableName (bootstrapUnit tableName) w
    = (inr (bootstrapUnit tableName), w')
    ∧ runMigration_spec tableName (bootstrapUnit tableName) (db w)
      = (inr (bootstrapUnit tableName), db w')
    ∧ ledger (db w') tableName = Some [ledger_row (bootstrapUnit tableName) at_]
    ∧ table_exists (db w') tableName = true
    ∧ same_env w w'.
Proof.
  intros Hq Hr.
  destruct (client_runMigration_spec tableName (bootstrapUnit tableName) w)
    as (w' & E & Hdb & _ & _ & Henv).
  destruct (create_table_fresh tableName (db w) Hr) as (_ & Hl1 & Hex1).
  destruct (insert_row_fresh tableName (bootstrapUnit tableName) _ [] Hl1)
    as (d2 & Hins & Hl2 & Hex2); [done|].
  assert (runMigration tableName (bootstrapUnit tableName) (db w)
          = (inr (bootstrapUnit tableName), d2)) as Hrun.
  { simpl. unfold runMigration_spec. simpl Migration.sql.
    by rewrite server_exec_bootstrap, Hins. }
  rewrite Hrun in E, Hdb. simpl in E, Hdb. exists w'. eexists.
  rewrite Hdb. split_and!; [done|done|by rewrite Hl2|by rewrite Hex2|done].
Qed.

Lemma runMigration_unit (tableName : string) (m : Migration) (w : World)
    (stored : list Row) :
  leaves_ledger tableName (Migration.sql m) (db w) →
  ledger (db w) tableName = Some stored →
  (∀ r, In r stored → Row.id r ≠ Migration.id m ∧ Row.name r ≠ Migration.name m) →
  ∃ w' at_,
    client_runMigration tableName m w = (inr m, w')
    ∧ runMigration_spec tableName m (db w) = (inr m, db w')
    ∧ ledger (db w') tableName = Some (stored ++ [ledger_row m at_])%list
    ∧ table_exists (db w') tableName = table_exists (db w) tableName
    ∧ same_env w w'.
Proof.
  intros Hbody Hl Hfresh.
  destruct (client_runMigration_spec tableName m w)
    as (w' & E & Hdb & _ & _ & Henv).
  destruct Hbody as (d1 & Hexec & Hl1 & Hex1).
  rewrite Hl in Hl1.
  destruct (insert_row_fresh tableName m d1 stored Hl1 Hfresh)
    as (d2 & Hins & Hl2 & Hex2).
  assert (runMigration tableName m (db w) = (inr m, d2)) as Hrun.
  { simpl. unfold runMigration_spec. by rewrite Hexec, Hins. }
  rewrite Hrun in E, Hdb. simpl in E, Hdb. exists w'. eexists.
  rewrite Hdb. split_and!; [done|done|by rewrite Hl2|by rewrite Hex2, Hex1|done].
Qed.

Lemma applyMigrations_units (dbConfig : nat) (tableName : string)
    (pending : list Migration) :
  ∀ (completed : list Migration) (w : World) (stored : list Row),
    js_to_string (get_property (heap w) (VObject dbConfig) "tableName") = tableName →
    ledger (db w) tableName = Some stored →
    bodies_apply tableName pending (db w) →
    NoDup (List.map Row.id stored ++ List.map Migration.id pending) →
    NoDup (List.map Row.name stored ++ List.map Migration.name pending) →
    ∃ w' stamps,
      applyMigrations dbConfig pending completed w
      = (inr (completed ++ pending)%list, w')
      ∧ List.length stamps = List.length pending
      ∧ ledger (db w') tableName
        = Some (stored ++ zip_with ledger_row pending stamps)%list
      ∧ table_exists (db w') tableName = table_exists (db w) tableName
      ∧ same_env w w'.
Proof.
  induction pending as [|m rest IH]; intros completed w stored Ht Hl Hb Hid Hname.
  - exists w, []. simpl. rewrite !app_nil_r. by split_and!.
  - destruct Hb as [Hbm Hbrest].
    assert (∀ r, In r stored →
                 Row.id r ≠ Migration.id m ∧ Row.name r ≠ Migration.name m)
      as Hfresh.
    { intros r Hr. apply NoDup_app in Hid as (_ & Hid & _).
      apply NoDup_app in Hname as (_ & Hname & _). split.
      - intros Heq. apply (Hid (Row.id r)).
        + apply list_elem_of_In, List.in_map, Hr.
        + rewrite Heq. simpl. left.
      - intros Heq. apply (Hname (Row.name r)).
        + apply list_elem_of_In, List.in_map, Hr.
        + rewrite Heq. simpl. left. }
    destruct (runMigration_unit tableName m w stored Hbm Hl Hfresh)
      as (w1 & a & E1 & Hspec1 & Hl1 & Hex1 & Henv1).
    rewrite applyMigrations_cons, Ht, E1.
    destruct (IH (completed ++ [m])%list w1 (stored ++ [ledger_row m a])%list)
      as (w' & stamps & E & Hlen & Hl' & Hex' & Henv'); [|done| | | |].
    + destruct Henv1 as (-> & _). done.
    + by apply Hbrest.
    + by rewrite List.map_app, <- app_assoc.
    + by rewrite List.map_app, <- app_assoc.
    + exists w', (a :: stamps). rewrite E, <- !app_assoc. simpl.
      split_and!; [done|by rewrite Hlen|by rewrite Hl', <- app_assoc
                  |by rewrite Hex'|by etrans].
Qed.

Lemma sorted_ids_NoDup (l : list Migration) :
  StronglySorted (λ a b, Migration.id a < Migration.id b) l →
  NoDup (List.map Migration.id l).
Proof.
  induction 1 as [|x l Hl IH Hx]; simpl; constructor; [|done].
  intros Hin. apply list_elem_of_In, List.in_map_iff in Hin as (y & Heq & Hy).
  rewrite List.Forall_forall in Hx. specialize (Hx y Hy). simpl in Hx. lia.
Qed.

Lemma array_as_record_nil (k : Z) : array_as_record [] !! k = None.
Proof. apply lookup_empty. Qed.

Lemma validateMigrations_empty_record (migrations : list Migration) :
  consecutive migrations →
  validateMigrations migrations (array_as_record []) = inr tt
  ∧ filterMigrations migrations (array_as_record []) = migrations.
Proof.
  intros Hc. split.
  - rewrite (validateMigrations_consecutive _ _ Hc).
    rewrite invalidHash_filter_nil; [done|].
    intros u _ (r & Hr & _). by rewrite array_as_record_nil in Hr.
  - unfold filterMigrations. induction migrations as [|u l IH]; [done|].
    simpl. unfold notAppliedMigration at 1. rewrite array_as_record_nil.
    f_equal. clear. induction l as [|v l IH]; [done|]. simpl.
    unfold notAppliedMigration at 1. rewrite array_as_record_nil. by f_equal.
Qed.





(** A first run against a database without a ledger applies the bootstrap
    unit and then every other loaded unit, and records each. *)
Lemma run_fresh_ledger (dbConfig : nat) (directory : string) (config : Config)
    (w : World) (names : list string) (units rest : list Migration)
    (tableName : string) :
  js_to_string (get_property (heap w) (VObject dbConfig) "tableName") = tableName →
  connectError w = None →
  directories (fs w) !! directory = Some names →
  Forall2 (λ p u, loadMigrationFile_spec p (fs w) = inr u)
    (List.filter isValidFile (List.map (path_resolve directory) names)) units →
  sort_by Migration.id (units ++ [bootstrapUnit tableName])
  = bootstrapUnit tableName :: rest →
  consecutive (bootstrapUnit tableName :: rest) →
  NoDup (List.map Migration.name (bootstrapUnit tableName :: rest)) →
  table_exists (db w) tableName = false →
  resolve (db w) tableName = None →
  is_quotable tableName = true →
  bodies_apply tableName rest
    (snd (runMigration_spec tableName (bootstrapUnit tableName) (db w))) →
  ∃ w' stamps,
    runMigrations dbConfig directory config w
    = (inr (bootstrapUnit tableName :: rest), w')
    ∧ List.length stamps = List.length (bootstrapUnit tableName :: rest)
    ∧ ledger (db w') tableName
      = Some (zip_with ledger_row (bootstrapUnit tableName :: rest) stamps)
    ∧ table_exists (db w') tableName = true
    ∧ same_env w w'
    ∧ executed w' = (executed w ++ bootstrapUnit tableName :: rest)%list.
Proof.
  intros Ht Hc Hdir Hunits Hsort Hcons Hnames Hex Hr Hq Hbodies.
  destruct (@connectAndLoad_loaded specCollaborators dbConfig directory config w names units
              (bootstrapUnit tableName) [] Hc Hdir Hunits)
    as (w2 & Hload & Hq2).
  { rewrite Ht. apply loadRaw_bootstrap. }
  { intros w1 (_ & Hdb1 & _). rewrite Ht.
    destruct (fetch_absent tableName (logger_of config) w1) as (wf & Ef & _).
    - by rewrite Hdb1.
    - by exists wf. }
  rewrite Hsort in Hload.
  destruct (runMigrations_reconciling _ _ _ _ _ _ _ Hload)
    as (r & w3 & w4 & Hrun & Hq4 & Hm).
  destruct (validateMigrations_empty_record _ Hcons) as [Hv Hf].
  rewrite Hv, Hf in Hm.
  destruct Hq2 as ((Hheap2 & Hfs2 & Hce2 & Hee2) & Hdb2 & Hexec2).
  destruct (runMigration_bootstrap tableName w2 Hq)
    as (wb & a0 & Eb & Hspecb & Hlb & Hexb & Henvb).
  { by rewrite Hdb2. }
  rewrite Hdb2 in Hspecb. rewrite Hspecb in Hbodies. simpl in Hbodies.
  assert (NoDup (List.map Migration.id (bootstrapUnit tableName :: rest))) as Hids.
  { by apply sorted_ids_NoDup, consecutive_from_sorted. }
  destruct (applyMigrations_units dbConfig tableName rest [bootstrapUnit tableName]
              wb [ledger_row (bootstrapUnit tableName) a0])
    as (wr & stamps & Er & Hlen & Hlr & Hexr & Henvr);
    [|done|done|exact Hids|exact Hnames|].
  { destruct Henvb as (-> & _). by rewrite Hheap2. }
  assert (applyMigrations dbConfig (bootstrapUnit tableName :: rest) [] w2
          = (inr (bootstrapUnit tableName :: rest), wr)) as Happly.
  { rewrite applyMigrations_cons, Hheap2, Ht, Eb. exact Er. }
  rewrite Happly in Hm. destruct Hm as [-> ->].
  destruct (applyMigrations_ok _ _ _ _ _ _ Happly) as (res & _ & _ & Hexec & _).
  destruct Hq4 as ((Hheap4 & Hfs4 & Hce4 & Hee4) & Hdb4 & Hexec4).
  destruct Henvb as (Hheapb & Hfsb & Hceb & Heeb).
  destruct Henvr as (Hheapr & Hfsr & Hcer & Heer).
  exists w4, (a0 :: stamps).
  split_and!; [done|by simpl; rewrite Hlen|by rewrite Hdb4, Hlr|
               by rewrite Hdb4, Hexr| |by rewrite Hexec4, Hexec, Hexec2].
  repeat split; congruence.
Qed.


Lemma consecutive_singleton (tableName : string) :
  consecutive [bootstrapUnit tableName].
Proof. intros [|i] u; simpl; [by intros [= <-]|done]. Qed.

(** C5. For every readable directory whose candidate files load, the set
    loader appends the bootstrap unit and returns all units sorted
    ascending by id. The bootstrap unit has id 0 and the fixed file name,
    and depends on nothing but the configured ledger-table name. For a
    name that can be written between double quotes, its body reads as
    [CREATE TABLE IF NOT EXISTS] of a table of exactly that name with the
    columns id (integer, primary key), name (unique, not null), hash (not
    null) and executed_at (defaulting to the current time); executed, it
    adds that table, empty, to the schema of the session when the name
    resolves to nothing there, and changes nothing when it resolves to a
    relation. For an empty directory the set is the bootstrap unit alone,
    and a run against a database without a ledger then applies exactly
    that one migration and records it. *)
Theorem load_appends_bootstrap (directory : string) (log : Logger)
    (dbConfig : nat) (w : World) (names : list string)
    (units : list Migration) (tableName : string) :
  js_to_string (get_property (heap w) (VObject dbConfig) "tableName") = tableName →
  directories (fs w) !! directory = Some names →
  Forall2 (λ p u, loadMigrationFile_spec p (fs w) = inr u)
    (List.filter isValidFile (List.map (path_resolve directory) names)) units →
  loadRaw_spec bootstrapFileName (createTableSql tableName)
  = inr (bootstrapUnit tableName)
  ∧ Migration.id (bootstrapUnit tableName) = 0
  ∧ Migration.fileName (bootstrapUnit tableName) = "0_create-migrations-table.sql"
  ∧ (is_quotable tableName = true →
     parse_create_table (Migration.sql (bootstrapUnit tableName))
     = Some {| if_not_exists := true;
               table_name := tableName;
               columns :=
                 [{| column_name := "id"; data_type := "integer";
                     type_size := None; constraints := [PrimaryKey] |};
                  {| column_name := "name"; data_type := "varchar";
                     type_size := Some "100"; constraints := [Unique; NotNull] |};
                  {| column_name := "hash"; data_type := "varchar";
                     type_size := Some "40"; constraints := [NotNull] |};
                  {| column_name := "executed_at"; data_type := "timestamp";
                     type_size := None;
                     constraints := [Default "current_timestamp"] |}] |}
     ∧ ∀ d, ∃ d',
         server_exec (Migration.sql (bootstrapUnit tableName)) d = inr d'
         ∧ (resolve d tableName = None →
            pg_class d'
            = (pg_class d ++ [{| relname := tableName;
                                 relnamespace := current_schema d;
                                 relkind := "r"; relrows := [] |}])%list
            ∧ ledger d' tableName = Some []
            ∧ table_exists d' tableName = true)
         ∧ (∀ c, resolve d tableName = Some c → d' = d))
  ∧ ∃ loaded w',
      load directory log dbConfig w = (inr loaded, w')
      ∧ quiet w w'
      ∧ loaded = sort_by Migration.id (units ++ [bootstrapUnit tableName])
      ∧ loaded ≡ₚ units ++ [bootstrapUnit tableName]
      ∧ StronglySorted (λ a b, Migration.id a ≤ Migration.id b) loaded
      ∧ (names = [] →
         loaded = [bootstrapUnit tableName]
         ∧ ∀ config,
             connectError w = None →
             table_exists (db w) tableName = false →
             resolve (db w) tableName = None →
             is_quotable tableName = true →
             ∃ w'' at_,
               runMigrations dbConfig directory config w
               = (inr [bootstrapUnit tableName], w'')
               ∧ executed w'' = (executed w ++ [bootstrapUnit tableName])%list
               ∧ table_exists (db w'') tableName = true
               ∧ ledger (db w'') tableName
                 = Some [ledger_row (bootstrapUnit tableName) at_]).
Proof.
  intros Ht Hdir Hunits. split_and!; [done..| |].
  { intros Hq. split; [by apply parse_bootstrap|]. intros d.
    exists (create_table_if_not_exists tableName d).
    split_and!; [by apply server_exec_bootstrap|by apply create_table_fresh|].
    intros c Hc. by eapply create_table_present. }
  destruct (@load_loaded specCollaborators directory log dbConfig w names units
              (bootstrapUnit tableName) Hdir Hunits) as (w' & E & Hq).
  { rewrite Ht. apply loadRaw_bootstrap. }
  exists (sort_by Migration.id (units ++ [bootstrapUnit tableName])), w'.
  split_and!; [done|done|done|apply sort_by_Permutation|apply sort_by_sorted|].
  intros ->. simpl in Hunits. apply Forall2_nil_inv_l in Hunits as ->.
  split; [done|]. intros config Hc Hex Hr Hquot.
  destruct (run_fresh_ledger dbConfig directory config w [] [] [] tableName)
    as (w'' & stamps & Hrun & Hlen & Hl' & Hex' & _ & Hexec);
    [done|done|done|constructor|done|apply consecutive_singleton
    |apply NoDup_singleton|done|done|done|done|].
  destruct stamps as [|a0 [|a1 stamps]]; [done| |done].
  by exists w'', a0.
Qed.





End SpecModel.

(** * Scenarios *)

(** C1, on concrete units: the gap at position 2 is reported, the dense
    list passes the ordering check. *)
Lemma validateMigrations_ordering_check_witness :
  (∃ (j : nat) v,
      units_with_gap !! j = Some v
      ∧ ∀ applied, validateMigrations units_with_gap applied
                   = inl (nonConsecutiveIdError (Migration.fileName v)))
  ∧ js_find indexNotMatch units_dense = None.
Proof.
  split.
  - destruct (proj1 (@validateMigrations_ordering_check toyCollaborators
                       units_with_gap) 2%nat unit3)
      as (j & v & Hj & _ & _ & Hv & _).
    + reflexivity.
    + simpl. lia.
    + exists j, v. split; [exact Hj|exact Hv].
  - apply (proj2 (@validateMigrations_ordering_check toyCollaborators units_dense)).
    intros [|[|i]] u; simpl; intros Hu; try discriminate Hu;
      injection Hu as <-; reflexivity.
Defined.

Lemma units_dense_consecutive :
  ∀ (i : nat) u, units_dense !! i = Some u → Migration.id u = Z.of_nat i.
Proof.
  intros [|[|i]] u; simpl; intros Hu; try discriminate Hu;
    injection Hu as <-; reflexivity.
Defined.

(** C2 as first stated fails: the file of unit 1 is gone and the file of
    unit 2 was changed after it was applied; unit 2 is recorded under its
    id with another hash, yet validation raises the non-consecutive-id
    error for it and no hash-mismatch error. *)
Lemma validateMigrations_ordering_precedes_integrity :
  In unit2 units_missing_file
  ∧ hash_differs applied_three_tampered unit2
  ∧ validateMigrations units_missing_file applied_three_tampered
    = inl (nonConsecutiveIdError "2_add_email_index.sql")
  ∧ ∀ fileNames,
      validateMigrations units_missing_file applied_three_tampered
      ≠ inl (hashMismatchError fileNames).
Proof.
  split_and!.
  - right. by left.
  - exists (row_of unit2 "other" 7). split; [reflexivity|]. simpl. discriminate.
  - reflexivity.
  - intros fileNames Hraised.
    rewrite (validateMigrations_nonConsecutive _ _ unit2) in Hraised
      by reflexivity.
    apply (nonConsecutive_not_hashMismatch (Migration.fileName unit2) fileNames).
    congruence.
Qed.

(** C2, on concrete units: both units are recorded, the second with another
    hash; one error lists it. *)
Lemma validateMigrations_integrity_check_witness :
  ∃ offending,
    (∀ u, In u offending ↔ In u units_dense ∧ hash_differs applied_tampered u)
    ∧ validateMigrations units_dense applied_tampered
      = inl (hashMismatchError (List.map Migration.fileName offending)).
Proof.
  destruct (proj1 (@validateMigrations_integrity_check toyCollaborators
                     units_dense applied_tampered) units_dense_consecutive)
    as (offending & Hin & _ & Hraise & _).
  exists offending. split; [exact Hin|]. apply Hraise.
  exists unit1. split; [right; left; reflexivity|].
  exists (row_of unit1 "other" 6). split; [reflexivity|]. simpl. discriminate.
Defined.

(** C3, on concrete units: with unit 0 recorded the delta is a sublist in
    ascending order; with both recorded it is empty. *)
Lemma filterMigrations_delta_witness :
  sublist (filterMigrations units_dense applied_first) units_dense
  ∧ filterMigrations units_dense applied_all = [].
Proof.
  split.
  - destruct (@filterMigrations_delta toyCollaborators units_dense applied_first)
      as (_ & Hsub & _); [reflexivity|exact Hsub].
  - destruct (@filterMigrations_delta toyCollaborators units_dense applied_all)
      as (_ & _ & _ & Hall); [reflexivity|].
    apply Hall. intros u [<-|[<-|[]]]; eexists; reflexivity.
Defined.

(** C4, on a concrete run of the loop: unit 1 is applied, the next unit
    fails, unit 3 is never handed to the executor. *)
Lemma applyMigrations_fail_fast_witness :
  executed (snd (@applyMigrations toyCollaborators 7%nat
                   [unit1; unit_failing; unit3] [] world_after_bootstrap))
  = [unit1; unit_failing].
Proof.
  destruct (@applyMigrations_fail_fast toyCollaborators 7%nat [unit1] unit_failing
              [unit3] world_after_bootstrap [unit1]
              (snd (@applyMigrations toyCollaborators 7%nat [unit1] []
                      world_after_bootstrap))
              (migrationApplyError unit_failing (Error "division by zero"))
              (snd (@client_runMigration toyCollaborators "migrations" unit_failing
                      (snd (@applyMigrations toyCollaborators 7%nat [unit1] []
                              world_after_bootstrap)))))
    as (Hloop & Hexec & _).
  - vm_compute. reflexivity.
  - vm_compute. reflexivity.
  - simpl app in Hloop. rewrite Hloop. exact Hexec.
Defined.

(** C5, on the empty directory and the default table name: the loaded
    set is the bootstrap unit alone, its body reads as the creation of
    the table [migrations], and the run creates that table. *)
Lemma load_appends_bootstrap_witness :
  (∃ w', @load toyCollaborators "/migrations" noopLogger 7%nat world_empty_dir
         = (inr [@bootstrapUnit toyPrimitives "migrations"], w'))
  ∧ table_name
      <$> parse_create_table
            (Migration.sql (@bootstrapUnit toyPrimitives "migrations"))
    = Some "migrations"
  ∧ ∃ w'', @runMigrations toyCollaborators 7%nat "/migrations"
             {| logger := None |} world_empty_dir
           = (inr [@bootstrapUnit toyPrimitives "migrations"], w'')
           ∧ table_exists (db w'') "migrations" = true.
Proof.
  destruct (@load_appends_bootstrap toyPrimitives "/migrations" noopLogger 7%nat
              world_empty_dir [] [] "migrations")
    as (_ & _ & _ & Hbody & loaded & w' & Hload & _ & _ & _ & _ & Hempty).
  - reflexivity.
  - reflexivity.
  - constructor.
  - destruct (Hempty eq_refl) as [-> Hrun]. split_and!.
    + exists w'. exact Hload.
    + destruct Hbody as [-> _]; reflexivity.
    + destruct (Hrun {| logger := None |}) as (w'' & a & E & _ & Hex & _);
        [reflexivity..|].
      exists w''. split; [exact E|exact Hex].
Defined.





(** C8 as first stated fails: the only relation named like the ledger
    table lives in another schema than the session's, the name does not
    resolve, and still the lookup answers that the table exists. *)
Lemma doesTableExist_ignores_schema :
  fst (doesTableExist "migrations" world_other_schema) = inr true
  ∧ resolve (db world_other_schema) "migrations" = None
  ∧ ∀ c, In c (pg_class (db world_other_schema)) →
         relname c = "migrations" →
         relnamespace c ≠ current_schema (db world_other_schema).
Proof.
  split; [reflexivity|]. split; [reflexivity|].
  intros c [<-|[]] _. simpl. discriminate.
Qed.

(** C9 as first stated fails: after the refused connection the session is
    still closed. *)
Lemma runMigrations_closes_after_refused_connect :
  connectError world_refused = Some (Error "connect ECONNREFUSED 127.0.0.1:5432")
  ∧ trace (snd (@runMigrations toyCollaborators 7%nat "/migrations"
                  {| logger := None |} world_refused))
    = [ClientConnect; ClientEnd].
Proof. split; reflexivity. Qed.

(** C9, on a server that refuses the connection and then fails the close
    as well. *)
Lemma runMigrations_connect_failure_witness :
  ∃ w', @runMigrations toyCollaborators 7%nat "/migrations"
          {| logger := Some recordingLogger |} world_unreachable
        = (inl (migrationFailed (Error "connect ECONNREFUSED 127.0.0.1:5432")), w')
        ∧ trace w' = [ClientConnect; ClientEnd]
        ∧ console w' = ["Attempting database migration";
                        "Error closing the connetion: Connection terminated"].
Proof.
  destruct (@runMigrations_connect_failure toyCollaborators 7%nat "/migrations"
              {| logger := Some recordingLogger |} world_unreachable
              (Error "connect ECONNREFUSED 127.0.0.1:5432"))
    as (w' & Hrun & _ & _ & Htrace & _ & Hconsole).
  - reflexivity.
  - exists w'. split; [exact Hrun|]. split; [exact Htrace|exact Hconsole].
Defined.

Lemma callerConfig_valid : valid_dbConfig callerConfig.
Proof. repeat split; eexists; reflexivity. Defined.

(** C10, on a caller's object without a table name, and on one with it. *)
Lemma migrate_defaults_tableName_witness :
  heap (snd (@migrate toyCollaborators (VObject 7) (VString "/migrations") None
               world_unnamed))
  = {[ 7%nat := callerConfigNamed ]}
  ∧ heap (snd (@migrate toyCollaborators (VObject 7) (VString "/migrations") None
                 world_empty_dir))
    = heap world_empty_dir.
Proof.
  split.
  - destruct (@migrate_defaults_tableName toyCollaborators 7%nat callerConfig
                "/migrations" None world_unnamed)
      as [Hdefault _].
    + reflexivity.
    + exact callerConfig_valid.
    + destruct Hdefault as (_ & Hheap & _); [reflexivity|].
      rewrite Hheap. apply insert_singleton_eq.
  - destruct (@migrate_defaults_tableName toyCollaborators 7%nat callerConfigNamed
                "/migrations" None world_empty_dir)
      as [_ Hkept].
    + reflexivity.
    + repeat split; eexists; reflexivity.
    + destruct Hkept as [_ Hheap]; [|exact Hheap]. simpl. discriminate.
Defined.

(** * Further properties of the sources *)

(** ** The candidate filter *)

Lemma canonicalize_letter (lower c : ascii) :
  (97 <= nat_of_ascii lower <= 122)%nat →
  Ascii.eqb (canonicalize c) (canonicalize lower) = true ↔ letter lower c.
Proof.
  intros Hl. unfold letter. rewrite Ascii.eqb_eq.
  assert (canonicalize lower = ascii_of_nat (nat_of_ascii lower - 32)) as ->.
  { unfold canonicalize. cbv zeta.
    destruct (Nat.leb_spec 97 (nat_of_ascii lower)); [|lia].
    destruct (Nat.leb_spec (nat_of_ascii lower) 122); [|lia]. done. }
  pose proof (nat_ascii_bounded c) as Hc.
  unfold canonicalize. cbv zeta.
  destruct (Nat.leb_spec 97 (nat_of_ascii c)) as [H1|H1];
    [destruct (Nat.leb_spec (nat_of_ascii c) 122) as [H2|H2]|]; simpl.
  - split.
    + intros Heq. left. apply (f_equal nat_of_ascii) in Heq.
      rewrite !nat_ascii_embedding in Heq by lia.
      rewrite <- (ascii_nat_embedding c), <- (ascii_nat_embedding lower).
      f_equal. lia.
    + intros [->| ->]; [done|].
      rewrite nat_ascii_embedding in H1 by lia. lia.
  - split.
    + intros ->. by right.
    + intros [->| ->]; [lia|done].
  - split.
    + intros ->. by right.
    + intros [->| ->]; [lia|done].
Qed.

Lemma Canonicalize_ascii up (c : N) :
  agrees_on_ascii up → (c < 128)%N →
  Canonicalize up c = if ((97 <=? c) && (c <=? 122))%N then (c - 32)%N else c.
Proof.
  intros Hup Hc. unfold Canonicalize. rewrite (Hup c Hc). unfold ascii_toUpperCase.
  destruct (N.leb_spec 128 c); [lia|]. done.
Qed.

Lemma Canonicalize_high up (c : N) : (128 ≤ c)%N → (128 ≤ Canonicalize up c)%N.
Proof.
  intros Hc. unfold Canonicalize.
  destruct (up c) as [|cu [|]]; [done| |done].
  destruct (N.leb_spec 128 c); [|lia]. simpl.
  destruct (N.ltb_spec cu 128); [done|lia].
Qed.

Lemma Canonicalize_letter up (lower c : N) :
  agrees_on_ascii up → (97 ≤ lower ≤ 122)%N →
  N.eqb (Canonicalize up c) (Canonicalize up lower) = true ↔ letter_unit lower c.
Proof.
  intros Hup Hl. unfold letter_unit. rewrite N.eqb_eq.
  rewrite (Canonicalize_ascii up lower Hup) by lia.
  destruct (N.leb_spec 97 lower); [|lia]. destruct (N.leb_spec lower 122); [|lia].
  simpl. destruct (N.lt_ge_cases c 128) as [Hc|Hc].
  - rewrite (Canonicalize_ascii up c Hup Hc).
    destruct (N.leb_spec 97 c); destruct (N.leb_spec c 122); simpl; lia.
  - pose proof (Canonicalize_high up c Hc). lia.
Qed.

Lemma ci_eqb_units_sql up (ext : list N) :
  agrees_on_ascii up →
  ci_eqb_units up ext [115; 113; 108]%N = true
  ↔ ∃ a b c, ext = [a; b; c]
             ∧ letter_unit 115 a ∧ letter_unit 113 b ∧ letter_unit 108 c.
Proof.
  intros Hup.
  destruct ext as [|a [|b [|c [|d ext]]]]; simpl;
    rewrite ?andb_true_r, ?andb_false_r, ?andb_true_iff;
    (split; [intros Hm|intros (a' & b' & c' & Heq & Ha & Hb & Hc)]);
    try discriminate.
  - destruct Hm as (Ha & Hb & Hc).
    apply Canonicalize_letter in Ha, Hb, Hc; [|done || lia..].
    by exists a, b, c.
  - injection Heq as -> -> ->.
    apply (Canonicalize_letter up) in Ha, Hb, Hc; [|done || lia..]. done.
Qed.

Lemma ci_eqb_units_js up (ext : list N) :
  agrees_on_ascii up →
  ci_eqb_units up ext [106; 115]%N = true
  ↔ ∃ a b, ext = [a; b] ∧ letter_unit 106 a ∧ letter_unit 115 b.
Proof.
  intros Hup.
  destruct ext as [|a [|b [|c ext]]]; simpl;
    rewrite ?andb_true_r, ?andb_false_r, ?andb_true_iff;
    (split; [intros Hm|intros (a' & b' & Heq & Ha & Hb)]);
    try discriminate.
  - destruct Hm as (Ha & Hb).
    apply Canonicalize_letter in Ha, Hb; [|done || lia..].
    by exists a, b.
  - injection Heq as -> ->.
    apply (Canonicalize_letter up) in Ha, Hb; [|done || lia..]. done.
Qed.

Lemma ci_eqb_units_kind up (ext : list N) :
  agrees_on_ascii up →
  (ci_eqb_units up ext [115; 113; 108]%N || ci_eqb_units up ext [106; 115]%N) = true
  ↔ recognized_kind_units ext.
Proof.
  intros Hup. unfold recognized_kind_units.
  by rewrite orb_true_iff, ci_eqb_units_sql, ci_eqb_units_js.
Qed.

Lemma isValidFile_units_match_from up (fileName : list N) :
  isValidFile_units up fileName = match_from_units up fileName.
Proof.
  unfold isValidFile_units, RegExp_test_units. cbn [lastIndex].
  change (List.length fileName <? 0)%nat with false. rewrite drop_0.
  by destruct (match_from_units up fileName).
Qed.

Lemma match_from_units_inv up (s : list N) :
  match_from_units up s = true →
  ∃ prefix c ext, s = (prefix ++ c :: ext)%list
                  ∧ is_LineTerminator c = false
                  ∧ (ci_eqb_units up ext [115; 113; 108]%N
                     || ci_eqb_units up ext [106; 115]%N) = true.
Proof.
  induction s as [|c s IH]; [done|].
  cbn [match_from_units]. rewrite orb_true_iff. intros [Hh|Ht].
  - unfold match_here_units in Hh. apply andb_true_iff in Hh as [Hc Hext].
    exists [], c, s. split; [done|]. by apply negb_true_iff in Hc.
  - destruct (IH Ht) as (prefix & c' & ext & -> & Hc & Hext).
    by exists (c :: prefix), c', ext.
Qed.

Lemma match_from_units_intro up (prefix : list N) (c : N) (ext : list N) :
  is_LineTerminator c = false →
  (ci_eqb_units up ext [115; 113; 108]%N || ci_eqb_units up ext [106; 115]%N) = true →
  match_from_units up (prefix ++ c :: ext) = true.
Proof.
  intros Hc Hext. induction prefix as [|x prefix IH].
  - cbn [app match_from_units]. unfold match_here_units. by rewrite Hc, Hext.
  - cbn [app match_from_units]. rewrite IH. apply orb_true_r.
Qed.

Lemma N_of_ascii_lt (a : ascii) : (N_of_ascii a < 256)%N.
Proof. destruct a as [[] [] [] [] [] [] [] []]; by vm_compute. Qed.

(** On the code units of a byte string the two readings of the [i] flag
    agree, for a letter of the pattern. *)
Lemma canonicalize_units up (a p : ascii) :
  agrees_on_ascii up →
  is_lower p = true →
  Ascii.eqb (canonicalize a) (canonicalize p)
  = N.eqb (Canonicalize up (N_of_ascii a)) (Canonicalize up (N_of_ascii p)).
Proof.
  intros Hup Hp. unfold is_lower in Hp. cbv zeta in Hp.
  apply andb_true_iff in Hp as [Hp1 Hp2].
  apply Nat.leb_le in Hp1, Hp2.
  pose proof (N_of_ascii_lt p) as Hlt.
  apply eq_true_iff_eq.
  rewrite (canonicalize_letter p a) by lia.
  unfold nat_of_ascii in Hp1, Hp2.
  rewrite (Canonicalize_letter up _ _ Hup) by lia.
  unfold letter, letter_unit, ascii_of_nat, nat_of_ascii.
  split; (intros [Ha|Ha]; [left|right]).
  - by rewrite Ha.
  - rewrite Ha, N_ascii_embedding by lia. lia.
  - apply (f_equal ascii_of_N) in Ha. by rewrite !ascii_N_embedding in Ha.
  - rewrite <- (ascii_N_embedding a), Ha. f_equal. lia.
Qed.

Lemma ci_eqb_code_units up (s p : string) :
  agrees_on_ascii up →
  all_chars is_lower p = true →
  ci_eqb s p = ci_eqb_units up (code_units s) (code_units p).
Proof.
  intros Hup. revert p. induction s as [|a s IH]; intros [|b p] Hp; try done.
  simpl in Hp. apply andb_true_iff in Hp as [Hb Hp].
  cbn [ci_eqb]. rewrite (canonicalize_units up a b Hup Hb), (IH p Hp). done.
Qed.

Lemma is_line_terminator_units (a : ascii) :
  is_line_terminator a = is_LineTerminator (N_of_ascii a).
Proof. destruct a as [[] [] [] [] [] [] [] []]; reflexivity. Qed.

Lemma match_from_code_units up (s : string) :
  agrees_on_ascii up →
  match_from s = match_from_units up (code_units s).
Proof.
  intros Hup. induction s as [|a s IH]; [done|].
  rewrite match_from_cons. change (code_units (String a s))
    with (N_of_ascii a :: code_units s). cbn [match_from_units].
  rewrite <- IH. f_equal. unfold match_here, match_here_units.
  rewrite is_line_terminator_units.
  rewrite (ci_eqb_code_units up s "sql" Hup), (ci_eqb_code_units up s "js" Hup);
    done.
Qed.

(** X1. Read on the code units of a JavaScript string, the candidate
    filter accepts exactly the names that end in one code unit that is no
    line terminator (LF, CR, U+2028, U+2029; any other code unit, a dot is
    not required) followed by [sql] or [js] in any mix of upper and lower
    case; nothing may follow the ending and something must precede it.
    Of the tables of Unicode only the upper case of the code units below
    128 is used. On the names whose code units are below 256 this is the
    filter that [load] applies. *)
Theorem isValidFile_accepts_iff (toUpperCase : N → list N) :
  agrees_on_ascii toUpperCase →
  (∀ fileName : list N,
      isValidFile_units toUpperCase fileName = true
      ↔ ∃ prefix c ext,
          fileName = (prefix ++ c :: ext)%list
          ∧ c ≠ 10%N ∧ c ≠ 13%N ∧ c ≠ 8232%N ∧ c ≠ 8233%N
          ∧ recognized_kind_units ext)
  ∧ (∀ fileName : string,
        isValidFile fileName = isValidFile_units toUpperCase (code_units fileName)).
Proof.
  intros Hup. split.
  - intros fileName. rewrite isValidFile_units_match_from. split.
    + intros Hm.
      destruct (match_from_units_inv _ _ Hm) as (prefix & c & ext & -> & Hc & He).
      exists prefix, c, ext. unfold is_LineTerminator in Hc.
      rewrite !orb_false_iff, !N.eqb_neq in Hc. destruct Hc as [[[H1 H2] H3] H4].
      split_and!; [done..|]. by rewrite <- (ci_eqb_units_kind toUpperCase).
    + intros (prefix & c & ext & -> & H1 & H2 & H3 & H4 & He).
      apply match_from_units_intro; [|by apply ci_eqb_units_kind].
      unfold is_LineTerminator. rewrite !orb_false_iff, !N.eqb_neq. done.
  - intros fileName.
    rewrite isValidFile_match_from, isValidFile_units_match_from.
    by apply match_from_code_units.
Qed.

(** ** The reconciler *)

Lemma consecutive_ids_from (l : list Migration) (start : nat) :
  (∀ (k : nat) u, l !! k = Some u → Migration.id u = Z.of_nat (start + k))
  ↔ List.map Migration.id l = List.map Z.of_nat (seq start (List.length l)).
Proof.
  revert start. induction l as [|x l IH]; intros start; simpl.
  - split; [done|]. intros _ k u Hk. by destruct k.
  - split.
    + intros Hc. f_equal.
      * rewrite (Hc 0%nat x eq_refl). f_equal. lia.
      * apply IH. intros k u Hk. rewrite (Hc (S k) u Hk). f_equal. lia.
    + intros [= Hx Hl] [|k] u Hk; simpl in Hk.
      * injection Hk as <-. rewrite Hx. f_equal. lia.
      * rewrite (proj2 (IH (S start)) Hl k u Hk). f_equal. lia.
Qed.

(** X2. [validateMigrations] accepts a list of units exactly when their
    ids, read in list order, are 0, 1, ..., n-1 and no unit is recorded
    under its id with another hash; names, file names and bodies play no
    part. *)
Theorem validateMigrations_accepts_iff (migrations : list Migration)
    (applied : gmap Z Row) :
  validateMigrations migrations applied = inr tt
  ↔ List.map Migration.id migrations
    = List.map Z.of_nat (seq 0 (List.length migrations))
    ∧ ∀ u, In u migrations → ¬ hash_differs applied u.
Proof.
  rewrite <- (consecutive_ids_from migrations 0). split.
  - intros Hv. pose proof (validateMigrations_ok_consecutive _ _ Hv) as Hc.
    split; [exact Hc|]. intros u Hu Hd.
    rewrite (validateMigrations_consecutive _ _ Hc) in Hv.
    apply invalidHash_true in Hd.
    assert (In u (List.filter (invalidHash applied) migrations)) as Hin.
    { by apply List.filter_In. }
    by destruct (List.filter (invalidHash applied) migrations).
  - intros [Hc Hno]. rewrite (validateMigrations_consecutive _ _ Hc).
    by rewrite invalidHash_filter_nil.
Qed.

Lemma filterMigrations_from (rows : list Row) (l : list Migration) (start : nat) :
  (∀ (k : nat) u, l !! k = Some u → Migration.id u = Z.of_nat (start + k)) →
  filterMigrations l (array_as_record rows) = drop (List.length rows - start) l.
Proof.
  revert start. induction l as [|x l IH]; intros start Hc.
  - by rewrite drop_nil.
  - unfold filterMigrations in *. simpl. unfold notAppliedMigration at 1.
    rewrite (Hc 0%nat x eq_refl), Nat.add_0_r, array_as_record_lookup.
    assert (List.filter (notAppliedMigration (array_as_record rows)) l
            = drop (List.length rows - S start) l) as ->.
    { apply IH. intros k u Hk. rewrite (Hc (S k) u Hk). f_equal. lia. }
    destruct (rows !! start) as [r|] eqn:Hr.
    + apply lookup_lt_Some in Hr.
      replace (List.length rows - start)%nat
        with (S (List.length rows - S start)) by lia. done.
    + apply lookup_ge_None in Hr.
      replace (List.length rows - start)%nat with 0%nat by lia.
      replace (List.length rows - S start)%nat with 0%nat by lia. done.
Qed.

(** X3. With the array of fetched rows as the applied record, the delta of
    a list whose units sit at the position of their id is the list without
    its first [rows.length] units: only the number of ledger rows decides
    what is pending, not the ids the rows carry. In particular nothing is
    pending once the ledger has at least as many rows as there are units,
    and everything is pending against an empty ledger. *)
Theorem filterMigrations_drops_ledger_length (migrations : list Migration)
    (rows : list Row) :
  (∀ (i : nat) u, migrations !! i = Some u → Migration.id u = Z.of_nat i) →
  filterMigrations migrations (array_as_record rows)
  = drop (List.length rows) migrations
  ∧ ((List.length migrations <= List.length rows)%nat →
     filterMigrations migrations (array_as_record rows) = [])
  ∧ (rows = [] → filterMigrations migrations (array_as_record rows) = migrations).
Proof.
  intros Hc.
  assert (filterMigrations migrations (array_as_record rows)
          = drop (List.length rows) migrations) as Hd.
  { rewrite (filterMigrations_from rows migrations 0); [|done].
    by rewrite Nat.sub_0_r. }
  rewrite Hd. split_and!; [done| |].
  - intros Hlen. by apply drop_ge.
  - by intros ->.
Qed.

(** X4. With the array of fetched rows as the applied record, a list whose
    units sit at the position of their id validates exactly when every
    unit that has a row at its position carries the hash of that row: the
    check compares position by position and hash by hash, and neither the
    id nor the name stored in a row is looked at. *)
Theorem validateMigrations_compares_positions (migrations : list Migration)
    (rows : list Row) :
  (∀ (i : nat) u, migrations !! i = Some u → Migration.id u = Z.of_nat i) →
  validateMigrations migrations (array_as_record rows) = inr tt
  ↔ ∀ (i : nat) u r,
      migrations !! i = Some u → rows !! i = Some r →
      Row.hash r = Migration.hash u.
Proof.
  intros Hc. rewrite (validateMigrations_consecutive _ _ Hc). split.
  - intros Hv i u r Hu Hr.
    destruct (decide (Row.hash r = Migration.hash u)) as [|Hne]; [done|].
    assert (In u (List.filter (invalidHash (array_as_record rows)) migrations))
      as Hin.
    { apply List.filter_In. split.
      - apply list_elem_of_In, list_elem_of_lookup. by exists i.
      - apply invalidHash_true. exists r.
        by rewrite (Hc i u Hu), array_as_record_lookup. }
    by destruct (List.filter _ migrations).
  - intros Hall. rewrite invalidHash_filter_nil; [done|].
    intros u Hu (r & Hr & Hne).
    apply list_elem_of_In, list_elem_of_lookup in Hu as [i Hi].
    rewrite (Hc i u Hi), array_as_record_lookup in Hr.
    apply Hne. by apply (Hall i u r).
Qed.

(** ** The entry point *)

Lemma typeof_string (v : JsValue) :
  String.eqb (typeof v) "string" = true ↔ ∃ s, v = VString s.
Proof.
  destruct v; simpl; split; try done; try (by intros [? [=]]).
  intros _. by eexists.
Qed.

Lemma typeof_number (v : JsValue) :
  String.eqb (typeof v) "number" = true ↔ ∃ n, v = VNumber n.
Proof.
  destruct v; simpl; split; try done; try (by intros [? [=]]).
  intros _. by eexists.
Qed.

Lemma bad_dbConfig_spec (h : Heap) (dbConfig : JsValue) :
  bad_dbConfig h dbConfig = true
  ↔ dbConfig = VNull ∨ dbConfig = VUndefined ∨ ill_typed h dbConfig.
Proof.
  unfold bad_dbConfig, ill_typed. rewrite !orb_true_iff, !negb_true_iff. split.
  - intros [[[[[Hn|Hd]|Hu]|Hp]|Hh]|Hport].
    + destruct dbConfig; try done; auto.
    + right; right; left. exists "database". split; [simpl; auto|].
      intros s Hs. rewrite (proj2 (typeof_string _)) in Hd; [done|by exists s].
    + right; right; left. exists "user". split; [simpl; auto|].
      intros s Hs. rewrite (proj2 (typeof_string _)) in Hu; [done|by exists s].
    + right; right; left. exists "password". split; [simpl; auto|].
      intros s Hs. rewrite (proj2 (typeof_string _)) in Hp; [done|by exists s].
    + right; right; left. exists "host". split; [simpl; auto|].
      intros s Hs. rewrite (proj2 (typeof_string _)) in Hh; [done|by exists s].
    + right; right; right.
      intros n Hn. rewrite (proj2 (typeof_number _)) in Hport; [done|by exists n].
  - assert (∀ f, (∀ s, get_property h dbConfig f ≠ VString s) →
                 String.eqb (typeof (get_property h dbConfig f)) "string" = false)
      as Hstr.
    { intros f Hf. apply not_true_is_false. intros Ht.
      apply typeof_string in Ht as [s Hs]. by apply (Hf s). }
    intros [->|[->|[(f & Hin & Hf)|Hport]]].
    + by repeat left.
    + by repeat left.
    + simpl in Hin. destruct Hin as [<-|[<-|[<-|[<-|[]]]]]; rewrite (Hstr _ Hf); auto 10.
    + right. apply not_true_is_false. intros Ht.
      apply typeof_number in Ht as [n Hn]. by apply (Hport n).
Qed.

Section EntryPoint.
Context `{Collaborators}.

(** X5. A configuration that is null or undefined, or in which one of
    database, user, password and host is not a string or port is not a
    number, makes [migrate] raise the plain error "Database config problem"
    (not wrapped as a failed migration) whatever the other arguments are;
    the world is left exactly as it was: no session is opened, nothing is
    logged and the caller's object is not written to. *)
Theorem migrate_rejects_bad_config (dbConfig migrationsDirectory : JsValue)
    (config : option Config) (w : World) :
  dbConfig = VNull ∨ dbConfig = VUndefined ∨ ill_typed (heap w) dbConfig →
  migrate dbConfig migrationsDirectory config w
  = (inl (Error "Database config problem"), w).
Proof.
  intros Hbad. apply bad_dbConfig_spec in Hbad. unfold migrate. by rewrite Hbad.
Qed.

(** X6. With a well-typed configuration object, a migrations directory
    that is not a string makes [migrate] raise the plain error "Must pass
    migrations directory as a string"; the world is left exactly as it was,
    in particular the default table name is not written into the caller's
    object and no session is opened. *)
Theorem migrate_rejects_bad_directory (ref : nat) (o : JsObject)
    (migrationsDirectory : JsValue) (config : option Config) (w : World) :
  heap w !! ref = Some o →
  valid_dbConfig o →
  (∀ s, migrationsDirectory ≠ VString s) →
  migrate (VObject ref) migrationsDirectory config w
  = (inl (Error "Must pass migrations directory as a string"), w).
Proof.
  intros Hh Hvalid Hdir. unfold migrate.
  rewrite (valid_dbConfig_passes _ _ _ Hh Hvalid).
  destruct migrationsDirectory; try done. by destruct (Hdir s).
Qed.

End EntryPoint.

(** ** The session of a run *)

Lemma idle_preorder : PreOrder idle.
Proof.
  split.
  - intros w. by repeat split.
  - intros w1 w2 w3 (E1&?&?) (E2&?&?). split; [by etrans|]. by split; etrans.
Qed.

#[local] Existing Instance idle_preorder.

Lemma do_log_idle log msg : preserves idle (do_log log msg).
Proof. intros w r w' [= <- <-]. by repeat split. Qed.

Lemma readDir_idle directory : preserves idle (readDir directory).
Proof.
  intros w r w'. unfold readDir.
  destruct (directories (fs w) !! directory); intros [= <- <-]; reflexivity.
Qed.

Lemma get_tableName_idle dbConfig : preserves idle (get_tableName dbConfig).
Proof. intros w r w' [= <- <-]. reflexivity. Qed.

Lemma logResult_idle completed log : preserves idle (logResult completed log).
Proof. unfold logResult. destruct (_ =? _)%nat; apply do_log_idle. Qed.

Lemma closing_inr log w : closing log w = (inr tt, snd (closing log w)).
Proof. destruct (closing_ok log w) as (w' & E & _). by rewrite E. Qed.

Lemma logResult_inr completed log w :
  logResult completed log w = (inr tt, snd (logResult completed log w)).
Proof. destruct (logResult_ok completed log w) as (w' & E & _). by rewrite E. Qed.

Lemma closing_trace log w :
  trace (snd (closing log w)) = (trace w ++ [ClientEnd])%list
  ∧ same_env w (snd (closing log w))
  ∧ db (snd (closing log w)) = db w.
Proof.
  unfold closing, try_catch, client_end, do_log.
  destruct (endError w) eqn:He; simpl; repeat split; congruence.
Qed.

Lemma fetch_trace tableName log w r w' :
  fetchAppliedMigrationFromDB tableName log w = (r, w') →
  trace w' = (trace w ++ reader_queries tableName (table_exists (db w) tableName))%list
  ∧ r = (if table_exists (db w) tableName
         then select_all_order_by_id (db w) tableName else inr [])
  ∧ same_env w w' ∧ db w' = db w.
Proof.
  unfold fetchAppliedMigrationFromDB, bind, doesTableExist.
  fold (table_exists (db w) tableName).
  destruct (table_exists (db w) tableName); unfold do_log, ret, query_select; simpl.
  - destruct (select_all_order_by_id (db w) tableName); intros [= <- <-]; simpl;
      rewrite <- app_assoc; by repeat split.
  - intros [= <- <-]. by repeat split.
Qed.

Section Session.
Context `{Collaborators}.

Lemma load_idle directory log config : preserves idle (load directory log config).
Proof.
  apply (preserves_bind idle); [apply do_log_idle|]. intros _.
  apply (preserves_bind idle); [apply readDir_idle|]. intros fileNames.
  apply (preserves_bind idle); [apply do_log_idle|]. intros _.
  destruct fileNames as [names|]; [|apply (preserves_ret idle)].
  apply (preserves_bind idle).
  { apply (preserves_promise_all idle). intros p w r w' [= <- <-]. reflexivity. }
  intros units.
  apply (preserves_bind idle); [apply get_tableName_idle|]. intros t.
  apply (preserves_bind idle); [apply (preserves_lift idle)|]. intros boot.
  apply (preserves_ret idle).
Qed.

Lemma applyMigrations_trace dbConfig pending completed w r w' :
  applyMigrations dbConfig pending completed w = (r, w') →
  ∃ attempted,
    trace w' = (trace w ++ List.map (RunMigration (configured_tableName w dbConfig))
                            attempted)%list
    ∧ same_env w w'.
Proof.
  revert completed w. induction pending as [|m rest IH]; intros completed w.
  - intros [= <- <-]. exists []. simpl. by rewrite app_nil_r.
  - rewrite applyMigrations_cons.
    destruct (client_runMigration_spec
                (js_to_string (get_property (heap w) (VObject dbConfig) "tableName"))
                m w) as (w1 & E & _ & Htr & _ & Henv).
    rewrite E. destruct (fst (runMigration _ m (db w))) as [e|x].
    + intros [= <- <-]. exists [m]. by split.
    + intros Hrest. destruct (IH _ _ Hrest) as (attempted & Htr' & Henv').
      exists (m :: attempted). split; [|by etrans].
      rewrite Htr', Htr, <- app_assoc. simpl.
      unfold configured_tableName. by destruct Henv as (-> & _).
Qed.

Lemma bind_inv {A B : Type} (m : M A) (k : A → M B) w r w' :
  bind m k w = (r, w') →
  (∃ e, m w = (inl e, w') ∧ r = inl e)
  ∨ (∃ a w1, m w = (inr a, w1) ∧ k a w1 = (r, w')).
Proof.
  unfold bind. destruct (m w) as [[e|a] w1].
  - intros [= <- <-]. left. by exists e.
  - intros Hk. right. by exists a, w1.
Qed.

(** The part of the [try] block after the rows are fetched hands units to
    the executor and does nothing else to the session. *)
Lemma reconcile_and_apply_trace dbConfig log ms rows w r w' :
  (lift (validateMigrations ms (array_as_record rows)) ;;;
   completedMigrations <-
     applyMigrations dbConfig (filterMigrations ms (array_as_record rows)) [] ;;
   logResult completedMigrations log ;;;
   ret completedMigrations)%js w = (r, w') →
  ∃ attempted,
    trace w' = (trace w ++ List.map (RunMigration (configured_tableName w dbConfig))
                            attempted)%list.
Proof.
  intros Hrun. apply bind_inv in Hrun as [(e & Hv & _)|([] & w1 & Hv & Hrun)].
  { injection Hv as _ <-. exists []. simpl. by rewrite app_nil_r. }
  injection Hv as _ <-.
  apply bind_inv in Hrun as [(e & Ha & _)|(completed & wa & Ha & Hrun)].
  { destruct (applyMigrations_trace _ _ _ _ _ _ Ha) as (attempted & Htr & _).
    by exists attempted. }
  destruct (applyMigrations_trace _ _ _ _ _ _ Ha) as (attempted & Htr & _).
  exists attempted.
  apply bind_inv in Hrun as [(e & Hl & _)|([] & wl & Hl & Hrun)].
  - destruct (logResult_idle _ _ _ _ _ Hl) as (_ & _ & ->). done.
  - destruct (logResult_idle _ _ _ _ _ Hl) as (_ & _ & Htrl).
    injection Hrun as _ <-. by rewrite Htrl.
Qed.

(** What a run asks of the session and of the executor, in order. *)
Lemma runMigrations_trace dbConfig directory config w r w' :
  runMigrations dbConfig directory config w = (r, w') →
  ∃ queries attempted,
    trace w'
    = (trace w ++ ClientConnect :: queries
         ++ List.map (RunMigration (configured_tableName w dbConfig)) attempted
         ++ [ClientEnd])%list
    ∧ (queries = []
       ∨ queries = reader_queries (configured_tableName w dbConfig)
                     (table_exists (db w) (configured_tableName w dbConfig)))
    ∧ (queries = [] → attempted = []).
Proof.
  unfold runMigrations. fold (logger_of config). fold (closing (logger_of config)).
  set (log := logger_of config). intros Hrun.
  apply bind_inv in Hrun as [(e & Hl & _)|([] & w0 & Hl & Hrun)]; [done|].
  destruct (do_log_idle _ _ _ _ _ Hl) as ((Hheap0 & _) & Hdb0 & Htr0).
  unfold try_finally in Hrun.
  destruct (try_catch _ _ w0) as [r1 w3] eqn:Htry.
  rewrite closing_inr in Hrun. injection Hrun as _ <-.
  destruct (closing_trace log w3) as (-> & _ & _).
  assert (∃ queries attempted,
             trace w3
             = (trace w ++ ClientConnect :: queries
                  ++ List.map (RunMigration (configured_tableName w dbConfig))
                       attempted)%list
             ∧ (queries = []
                ∨ queries = reader_queries (configured_tableName w dbConfig)
                              (table_exists (db w) (configured_tableName w dbConfig)))
             ∧ (queries = [] → attempted = []))
    as (queries & attempted & Htr & Hq & Hnone).
  2:{ exists queries, attempted. split; [|done].
      rewrite Htr, <- !app_assoc. simpl. by rewrite <- app_assoc. }
  assert (∃ rb, bind client_connect
                  (λ _, do_log log "Connected to database" ;;;
                        migrations <- load directory log dbConfig ;;
                        tableName <- get_tableName dbConfig ;;
                        appliedMigrations <- fetchAppliedMigrationFromDB tableName log ;;
                        lift (validateMigrations migrations
                                (array_as_record appliedMigrations)) ;;;
                        completedMigrations <-
                          applyMigrations dbConfig
                            (filterMigrations migrations
                               (array_as_record appliedMigrations)) [] ;;
                        logResult completedMigrations log ;;;
                        ret completedMigrations)%js w0 = (rb, w3)) as [rb Hbody].
  { revert Htry. unfold try_catch.
    destruct (bind client_connect _ w0) as [[e|a] wb].
    - unfold throw. intros [= _ <-]. by eexists.
    - intros [= _ <-]. by eexists. }
  clear Htry.
  apply bind_inv in Hbody as [(e & Hc & _)|([] & w1 & Hc & Hbody)].
  { exists [], []. revert Hc. unfold client_connect.
    destruct (connectError w0); intros Hc; inversion Hc; subst; simpl;
      rewrite Htr0; by split_and!; [|left|]. }
  assert (trace w1 = (trace w ++ [ClientConnect])%list ∧ heap w1 = heap w
          ∧ db w1 = db w) as (Htr1 & Hheap1 & Hdb1).
  { revert Hc. unfold client_connect.
    destruct (connectError w0); intros Hc; inversion Hc; subst; simpl;
      by rewrite Htr0, Hheap0, Hdb0. }
  apply bind_inv in Hbody as [(e & Hl1 & _)|([] & w1' & Hl1 & Hbody)]; [done|].
  destruct (do_log_idle _ _ _ _ _ Hl1) as ((Hheap1' & _) & Hdb1' & Htr1').
  apply bind_inv in Hbody as [(e & Hload & _)|(ms & wl & Hload & Hbody)].
  { destruct (load_idle _ _ _ _ _ _ Hload) as (_ & _ & Htrl).
    exists [], []. rewrite Htrl, Htr1', Htr1. simpl. by split_and!; [|left|]. }
  destruct (load_idle _ _ _ _ _ _ Hload) as ((Hheapl & _) & Hdbl & Htrl).
  apply bind_inv in Hbody as [(e & Hg & _)|(tn & wt & Hg & Hbody)]; [done|].
  injection Hg as <- <-.
  assert (js_to_string (get_property (heap wl) (VObject dbConfig) "tableName")
          = configured_tableName w dbConfig) as Htn.
  { unfold configured_tableName. by rewrite Hheapl, Hheap1', Hheap1. }
  unfold get_property in Htn. rewrite Htn in Hbody.
  assert (db wl = db w) as Hdbw by (by rewrite Hdbl, Hdb1', Hdb1).
  assert (trace wl = (trace w ++ [ClientConnect])%list) as Htrw
    by (by rewrite Htrl, Htr1', Htr1).
  apply bind_inv in Hbody as [(e & Hf & _)|(rows & wf & Hf & Hbody)].
  { destruct (fetch_trace _ _ _ _ _ Hf) as (Htrf & _ & _ & _).
    eexists _, []. split_and!; [|by right|done].
    rewrite Htrf, Htrw, Hdbw, <- app_assoc. simpl. by rewrite app_nil_r. }
  destruct (fetch_trace _ _ _ _ _ Hf) as (Htrf & _ & (Hheapf & _) & _).
  destruct (reconcile_and_apply_trace _ _ _ _ _ _ _ Hbody) as (attempted & Htra).
  eexists _, attempted. split_and!; [|by right|].
  - rewrite Htra, Htrf, Htrw, Hdbw, <- !app_assoc. simpl.
    unfold configured_tableName at 3.
    rewrite Hheapf, Hheapl, Hheap1', Hheap1. reflexivity.
  - unfold reader_queries.
    destruct (table_exists (db w) (configured_tableName w dbConfig));
      intros Hq; discriminate Hq.
Qed.

(** X7. Every run opens the session first and closes it last, exactly once
    each and whatever the outcome. In between it asks at most the catalog
    lookup and then, only if the lookup found the table, the SELECT of the
    ledger; only after these does it hand units to the executor; and every
    query and every executor call carries the one table name of the
    configuration object. *)
Theorem runMigrations_session_trace (dbConfig : nat) (directory : string)
    (config : Config) (w : World) (r : Result (list Migration)) (w' : World) :
  runMigrations dbConfig directory config w = (r, w') →
  ∃ queries attempted,
    trace w'
    = (trace w ++ ClientConnect :: queries
         ++ List.map (RunMigration (configured_tableName w dbConfig)) attempted
         ++ [ClientEnd])%list
    ∧ (queries = []
       ∨ queries = reader_queries (configured_tableName w dbConfig)
                     (table_exists (db w) (configured_tableName w dbConfig)))
    ∧ (queries = [] → attempted = []).
Proof. apply runMigrations_trace. Qed.

End Session.

Section Failures.
Context `{Collaborators}.

Lemma promise_all_files (paths : list string) (w : World) :
  snd (promise_all (λ p w0, (loadMigrationFile p (fs w0), w0)) paths w) = w
  ∧ ∀ w2, fs w2 = fs w →
          fst (promise_all (λ p w0, (loadMigrationFile p (fs w0), w0)) paths w2)
          = fst (promise_all (λ p w0, (loadMigrationFile p (fs w0), w0)) paths w).
Proof.
  induction paths as [|p paths [IHw IHr]]; simpl; [done|]. split.
  - unfold bind at 1. destruct (loadMigrationFile p (fs w)); [done|].
    unfold bind at 1.
    destruct (promise_all _ paths w) as [[e|ys] w1] eqn:E; simpl in *; by subst.
  - intros w2 Hfs. unfold bind at 1 3. rewrite Hfs.
    destruct (loadMigrationFile p (fs w)); [done|].
    unfold bind at 1 2.
    pose proof (IHr w2 Hfs) as Hr.
    destruct (promise_all _ paths w2) as [[e2|ys2] w2'];
      destruct (promise_all _ paths w) as [[e1|ys1] w1'];
      simpl in *; congruence.
Qed.

Lemma promise_all_rejected (paths : list string) (w : World) e :
  fst (promise_all (λ p w0, (loadMigrationFile p (fs w0), w0)) paths w) = inl e →
  ∃ p, In p paths ∧ loadMigrationFile p (fs w) = inl e.
Proof.
  induction paths as [|p paths IH]; simpl; [done|].
  unfold bind at 1. destruct (loadMigrationFile p (fs w)) as [e1|u] eqn:Ep.
  - intros [= <-]. exists p. by split; [left|].
  - unfold bind at 1.
    destruct (promise_all _ paths w) as [[e2|ys] w1] eqn:E; simpl in *; [|done].
    intros [= <-]. destruct (IH eq_refl) as (q & Hq & Hl). exists q.
    by split; [right|].
Qed.

Lemma promise_all_some_rejected (paths : list string) (w : World) :
  (∃ p, In p paths ∧ ∃ e, loadMigrationFile p (fs w) = inl e) →
  ∃ e, fst (promise_all (λ p w0, (loadMigrationFile p (fs w0), w0)) paths w)
       = inl e.
Proof.
  induction paths as [|p paths IH]; simpl; [by intros (?&[]&_)|].
  intros (q & [<-|Hq] & e & He).
  - exists e. unfold bind at 1. by rewrite He.
  - unfold bind at 1. destruct (loadMigrationFile p (fs w)) as [e1|u].
    + by exists e1.
    + destruct IH as [e2 He2]; [by exists q; split; [|exists e]|].
      exists e2. unfold bind at 1.
      destruct (promise_all _ paths w) as [[e3|ys] w1]; simpl in *; congruence.
Qed.

Lemma bind_do_log {B : Type} log msg (k : unit → M B) w :
  bind (do_log log msg) k w = k tt (with_console (log msg (console w)) w).
Proof. reflexivity. Qed.

Lemma bind_readDir {B : Type} directory (k : option (list string) → M B) w :
  bind (readDir directory) k w
  = match directories (fs w) !! directory with
    | Some names => k (Some names) w
    | None => (inl (Error ("ENOENT: no such file or directory, scandir '"
                           +:+ directory +:+ "'")), w)
    end.
Proof. unfold bind, readDir. by destruct (directories (fs w) !! directory). Qed.

Lemma bind_get_tableName {B : Type} config (k : string → M B) w :
  bind (get_tableName config) k w = k (configured_tableName w config) w.
Proof. reflexivity. Qed.

Lemma bind_lift {A B : Type} (x : Result A) (k : A → M B) w :
  bind (lift x) k w = match x with inl e => (inl e, w) | inr a => k a w end.
Proof. unfold bind, lift. by destruct x. Qed.

(** What the set loader returns is decided by the files and by the
    caller's objects alone. *)
Lemma load_result_env directory log config (w w2 : World) :
  fs w2 = fs w → heap w2 = heap w →
  fst (load directory log config w2) = fst (load directory log config w).
Proof.
  intros Hfs Hheap. unfold load.
  rewrite !bind_do_log, !bind_readDir. simpl fs. rewrite Hfs.
  destruct (directories (fs w) !! directory) as [names|]; [|done].
  rewrite !bind_do_log.
  set (paths := List.filter isValidFile (List.map (path_resolve directory) names)).
  set (wa := with_console _ (with_console _ w2)).
  set (wb := with_console _ (with_console _ w)).
  destruct (promise_all_files paths wa) as [Hwa _].
  destruct (promise_all_files paths wb) as [Hwb Hres].
  specialize (Hres wa Hfs).
  unfold bind at 1 4.
  destruct (promise_all _ paths wa) as [[e2|ys2] wa'];
    destruct (promise_all _ paths wb) as [[e1|ys1] wb'];
    simpl in Hwa, Hwb, Hres; try congruence; [by injection Hres as ->|].
  injection Hres as ->. subst wa' wb'.
  rewrite !bind_get_tableName, !bind_lift.
  unfold configured_tableName. simpl heap. rewrite Hheap.
  by destruct (loadRaw _ _).
Qed.

(** X8. When a candidate file cannot be loaded, the set loader rejects
    with the rejection of one of the candidate files and returns no set at
    all, the bootstrap unit included; it has asked nothing of the session
    and changed nothing. Files that the candidate filter refuses cannot
    cause this. *)
Theorem load_candidate_rejected (directory : string) (log : Logger)
    (config : nat) (w : World) (names : list string) :
  directories (fs w) !! directory = Some names →
  (∃ p, In p (List.filter isValidFile (List.map (path_resolve directory) names))
        ∧ ∃ e, loadMigrationFile p (fs w) = inl e) →
  ∃ p e w',
    In p (List.filter isValidFile (List.map (path_resolve directory) names))
    ∧ loadMigrationFile p (fs w) = inl e
    ∧ load directory log config w = (inl e, w')
    ∧ idle w w'.
Proof.
  intros Hdir Hsome.
  destruct (load directory log config w) as [r w'] eqn:Hload.
  pose proof (load_idle _ _ _ _ _ _ Hload) as Hidle.
  revert Hload. unfold load.
  rewrite bind_do_log, bind_readDir. simpl fs. rewrite Hdir, bind_do_log.
  unfold bind at 1.
  set (paths := List.filter isValidFile (List.map (path_resolve directory) names)) in *.
  set (wa := with_console _ (with_console _ w)).
  destruct (promise_all_some_rejected paths wa Hsome) as [e He].
  destruct (promise_all_rejected paths wa e He) as (p & Hp & Hl).
  destruct (promise_all _ paths wa) as [[e1|ys] wa']; simpl in He; [|done].
  injection He as ->. intros [= <- <-]. by exists p, e, wa'.
Qed.

Lemma runMigrations_closing_after_load dbConfig directory config w e w2 :
  connectAndLoad dbConfig directory config w = (inl e, w2) →
  runMigrations dbConfig directory config w
  = (inl (migrationFailed e), snd (closing (logger_of config) w2)).
Proof.
  unfold connectAndLoad. intros Hload.
  unfold runMigrations. fold (logger_of config). fold (closing (logger_of config)).
  apply bind_inv in Hload as [(e0 & E0 & _)|([] & w0 & E0 & Hload)]; [done|].
  mstep E0. unfold try_finally, try_catch at 1.
  apply bind_inv in Hload as [(e1 & E1 & [= <-])|([] & w1 & E1 & Hload)].
  { mstep E1. unfold throw. by rewrite closing_inr. }
  mstep E1.
  apply bind_inv in Hload as [(e1 & E1' & _)|([] & w1' & E1' & Hload)]; [done|].
  mstep E1'.
  apply bind_inv in Hload as [(e1 & El & [= <-])|(ms & wl & El & Hload)].
  { mstep El. unfold throw. by rewrite closing_inr. }
  mstep El.
  apply bind_inv in Hload as [(e1 & Et & _)|(t & wt & Et & Hload)]; [done|].
  mstep Et.
  apply bind_inv in Hload as [(e1 & Ef & [= <-])|(rows & wf & Ef & Hload)].
  { mstep Ef. unfold throw. by rewrite closing_inr. }
  done.
Qed.

(** X9. When the session opens but the set loader fails (the directory
    cannot be read, a candidate file is rejected, the bootstrap unit
    cannot be built), the run raises the wrapped error with the loader's
    error as its cause; it has connected and closed the session and asked
    nothing in between: no query reaches the database and no unit reaches
    the executor. *)
Theorem runMigrations_load_failure (dbConfig : nat) (directory : string)
    (config : Config) (w : World) (e : JsError) :
  connectError w = None →
  fst (load directory (logger_of config) dbConfig w) = inl e →
  ∃ w', runMigrations dbConfig directory config w = (inl (migrationFailed e), w')
        ∧ cause (migrationFailed e) = Some e
        ∧ trace w' = (trace w ++ [ClientConnect; ClientEnd])%list
        ∧ quiet w w'.
Proof.
  intros Hc Hl.
  destruct (connectAndLoad dbConfig directory config w) as [r w2] eqn:Hload.
  pose proof (connectAndLoad_quiet _ _ _ _ _ _ Hload) as Hq2.
  assert (r = inl e ∧ trace w2 = (trace w ++ [ClientConnect])%list) as [-> Htr2].
  { revert Hload. unfold connectAndLoad.
    unfold bind at 1. unfold do_log at 1. cbv beta iota.
    unfold bind at 1, client_connect. simpl connectError. rewrite Hc.
    unfold bind at 1. unfold do_log at 1. cbv beta iota.
    set (w1 := with_console _ (emit ClientConnect _)).
    assert (fst (load directory (logger_of config) dbConfig w1) = inl e) as Hl1.
    { by rewrite (load_result_env _ _ _ w w1). }
    unfold bind at 1.
    destruct (load directory (logger_of config) dbConfig w1) as [rl wl] eqn:El.
    simpl in Hl1. subst rl. intros [= <- <-].
    destruct (load_idle _ _ _ _ _ _ El) as (_ & _ & ->). done. }
  exists (snd (closing (logger_of config) w2)).
  destruct (closing_trace (logger_of config) w2) as (Htrc & Henvc & Hdbc).
  destruct (closing_ok (logger_of config) w2) as (wc & Ec & Hqc).
  split_and!.
  - by apply runMigrations_closing_after_load.
  - done.
  - by rewrite Htrc, Htr2, <- app_assoc.
  - rewrite Ec. simpl. by etrans.
Qed.

(** X10. An entry through [migrate] works with one table name throughout:
    the default name [migrations] when the caller's object has none, and
    the caller's name otherwise. The session is opened first and closed
    last, and each query and each executor call in between carries that
    name. *)
Theorem migrate_uses_one_table_name (ref : nat) (o : JsObject)
    (directory : string) (config : option Config) (w : World)
    (r : Result (list Migration)) (w' : World) (tableName : string) :
  heap w !! ref = Some o →
  valid_dbConfig o →
  tableName = match default VUndefined (o !! "tableName") with
              | VUndefined => "migrations"
              | v => js_to_string v
              end →
  migrate (VObject ref) (VString directory) config w = (r, w') →
  ∃ queries attempted,
    trace w'
    = (trace w ++ ClientConnect :: queries
         ++ List.map (RunMigration tableName) attempted ++ [ClientEnd])%list
    ∧ (queries = []
       ∨ queries = reader_queries tableName (table_exists (db w) tableName)).
Proof.
  intros Hh Hvalid Htn. unfold migrate.
  rewrite (valid_dbConfig_passes _ _ _ Hh Hvalid).
  assert (get_property (heap w) (VObject ref) "tableName"
          = default VUndefined (o !! "tableName")) as Hget.
  { unfold get_property. by rewrite Hh. }
  rewrite Hget.
  destruct (is_undefined (default VUndefined (o !! "tableName"))) eqn:Hu.
  - intros Hrun.
    destruct (runMigrations_trace _ _ _ _ _ _ Hrun) as (queries & attempted & Htr & Hq & _).
    assert (configured_tableName
              (with_heap (set_property (heap w) ref "tableName"
                            (VString DEFAULT_MIGRATION_TABLE_NAME)) w) ref
            = tableName) as Hname.
    { unfold configured_tableName, set_property, get_property. simpl.
      rewrite Hh, lookup_insert_eq, lookup_insert_eq. simpl.
      by destruct (default VUndefined (o !! "tableName")). }
    rewrite Hname in Htr, Hq. by exists queries, attempted.
  - intros Hrun.
    destruct (runMigrations_trace _ _ _ _ _ _ Hrun) as (queries & attempted & Htr & Hq & _).
    assert (configured_tableName w ref = tableName) as Hname.
    { unfold configured_tableName. rewrite Hget.
      by destruct (default VUndefined (o !! "tableName")). }
    rewrite Hname in Htr, Hq. by exists queries, attempted.
Qed.

End Failures.

(** ** The apply loop, the ledger reader and the sort *)

Section Loop.
Context `{Collaborators}.

(** X11. When the apply loop fails, it failed at exactly one pending unit:
    every unit before it was applied with success, one result each, the
    error is the one the executor raised for that unit, and the units
    handed to the executor are those up to and including it. *)
Theorem applyMigrations_failure_origin (dbConfig : nat)
    (pending completed : list Migration) (w : World) (e : JsError) (w' : World) :
  applyMigrations dbConfig pending completed w = (inl e, w') →
  ∃ pre u post w1 results,
    pending = (pre ++ u :: post)%list
    ∧ applyMigrations dbConfig pre completed w
      = (inr (completed ++ results)%list, w1)
    ∧ List.length results = List.length pre
    ∧ client_runMigration (configured_tableName w1 dbConfig) u w1 = (inl e, w')
    ∧ executed w' = (executed w ++ pre ++ [u])%list.
Proof.
  intros Hfail.
  destruct (applyMigrations_failed _ _ _ _ _ _ Hfail)
    as (pre & u & post & w1 & results & Hp & Hpre & Hu & Hex).
  exists pre, u, post, w1, results. split_and!; [done|done| |done|done].
  destruct (applyMigrations_ok _ _ _ _ _ _ Hpre) as (res & Heq & Hlen & _).
  apply app_inv_head in Heq. by subst res.
Qed.

End Loop.


(** X13. The sort by id of the set loader gives the same list for any two
    arrangements of the same units, as long as no two of them share an id:
    the order in which the directory lists its files, and the place where
    the bootstrap unit is appended, do not show in the loaded set. *)
Theorem sort_by_id_order_independent (units1 units2 : list Migration) :
  units1 ≡ₚ units2 →
  NoDup (List.map Migration.id units1) →
  sort_by Migration.id units1 = sort_by Migration.id units2.
Proof.
  intros Hperm Hnodup.
  apply (StronglySorted_unique_strong
           (λ a b : Migration, Migration.id a ≤ Migration.id b)).
  - intros x1 x2 Hx1 Hx2 H12 H21.
    rewrite sort_by_Permutation in Hx1, Hx2. rewrite <- Hperm in Hx2.
    assert (Migration.id x1 = Migration.id x2) as Hid by lia.
    clear H12 H21 Hperm. induction units1 as [|y l IH]; [by inversion Hx1|].
    simpl in Hnodup. apply NoDup_cons in Hnodup as [Hy Hl].
    apply elem_of_cons in Hx1 as [->|Hx1]; apply elem_of_cons in Hx2 as [->|Hx2].
    + done.
    + exfalso. apply Hy. rewrite Hid. apply list_elem_of_In, List.in_map.
      by apply list_elem_of_In.
    + exfalso. apply Hy. rewrite <- Hid. apply list_elem_of_In, List.in_map.
      by apply list_elem_of_In.
    + by apply IH.
  - apply sort_by_sorted.
  - apply sort_by_sorted.
  - by rewrite !sort_by_Permutation.
Qed.

(** X14. The set loader writes the table name between double quotes into
    the bootstrap statement, which names the table as it is spelled, and
    the catalog lookup compares the name as it is spelled; the ledger
    reader writes the name unquoted into its SELECT, where the server
    folds an identifier to lower case. So when the lookup has found the
    table and the folded name resolves to nothing in the schema of the
    session, as for a name with an upper-case letter whose table the
    bootstrap statement created, the reader raises the server's error
    for the folded name. *)
Theorem fetchAppliedMigrationFromDB_unquoted_name (tableName : string) :
  is_identifier tableName = true →
  table_name <$> parse_create_table (createTableSql tableName) = Some tableName
  ∧ unquoted_name tableName = Some (fold_case tableName)
  ∧ ∀ (log : Logger) (w : World),
      table_exists (db w) tableName = true →
      resolve (db w) (fold_case tableName) = None →
      ∃ w', fetchAppliedMigrationFromDB tableName log w
            = (inl (undefined_table (fold_case tableName)), w')
            ∧ quiet w w'.
Proof.
  intros Hid. split_and!.
  - by rewrite parse_bootstrap by by apply is_identifier_quotable.
  - unfold unquoted_name. by rewrite Hid.
  - intros log w Hex Hr. apply fetch_failed; [done|].
    apply from_rows_undefined; [|done]. unfold unquoted_name. by rewrite Hid.
Qed.

(** * Further scenarios *)

(** X1, on an upper-case ending, and on a name whose ending follows the
    line separator U+2028. *)
Lemma isValidFile_accepts_iff_witness :
  isValidFile_units ascii_toUpperCase (code_units "1_create_users.SQL") = true
  ∧ isValidFile "1_create_users.SQL" = true
  ∧ isValidFile_units ascii_toUpperCase [49; 8232; 115; 113; 108]%N = false.
Proof.
  destruct (isValidFile_accepts_iff ascii_toUpperCase) as [Hiff Hbytes].
  - intros c Hc. reflexivity.
  - split_and!.
    + apply Hiff. exists (code_units "1_create_users"), 46%N, [83; 81; 76]%N.
      split_and!; [reflexivity|discriminate..|].
      left. exists 83%N, 81%N, 76%N. split_and!; [reflexivity|by right..].
    + rewrite Hbytes. reflexivity.
    + destruct (isValidFile_units ascii_toUpperCase [49; 8232; 115; 113; 108]%N)
        eqn:E; [|reflexivity].
      apply Hiff in E as (prefix & c & ext & Heq & _ & _ & H3 & _ & Hkind).
      destruct Hkind as [(x & y & z & -> & _)|(x & y & -> & Hx & _)];
        destruct prefix as [|? [|? [|? [|? [|? rest]]]]]; simplify_eq/=;
        try (by destruct Hx); by destruct rest.
Defined.

(** X3, on units 0 and 1 with one fetched row. *)
Lemma filterMigrations_drops_ledger_length_witness :
  filterMigrations units_dense (array_as_record [row_of unit0 "h0" 5]) = [unit1].
Proof.
  destruct (filterMigrations_drops_ledger_length units_dense [row_of unit0 "h0" 5]
              units_dense_consecutive) as (Hdrop & _).
  rewrite Hdrop. reflexivity.
Defined.

(** X4, on units 0 and 1 with the row of unit 0 fetched. *)
Lemma validateMigrations_compares_positions_witness :
  validateMigrations units_dense (array_as_record [row_of unit0 "h0" 5]) = inr tt.
Proof.
  apply (proj2 (validateMigrations_compares_positions units_dense
                  [row_of unit0 "h0" 5] units_dense_consecutive)).
  intros [|[|i]] u r; simpl; intros Hu Hr; try discriminate Hr.
  injection Hu as <-. injection Hr as <-. reflexivity.
Defined.

(** X5, on a null configuration. *)
Lemma migrate_rejects_bad_config_witness :
  @migrate toyCollaborators VNull (VString "/migrations") None world_empty_dir
  = (inl (Error "Database config problem"), world_empty_dir).
Proof.
  apply (@migrate_rejects_bad_config toyCollaborators). left. reflexivity.
Defined.

(** X6, on a number in place of the directory. *)
Lemma migrate_rejects_bad_directory_witness :
  @migrate toyCollaborators (VObject 7) (VNumber 3) None world_unnamed
  = (inl (Error "Must pass migrations directory as a string"), world_unnamed).
Proof.
  apply (@migrate_rejects_bad_directory toyCollaborators 7%nat callerConfig).
  - reflexivity.
  - exact callerConfig_valid.
  - intros s Hs. discriminate Hs.
Defined.

(** X7, on the run over the two files. *)
Lemma runMigrations_session_trace_witness :
  ∃ queries attempted,
    trace (snd (@runMigrations toyCollaborators 7%nat "/migrations"
                  {| logger := None |} world_two_files))
    = (ClientConnect :: queries
         ++ List.map (RunMigration "migrations") attempted ++ [ClientEnd])%list.
Proof.
  destruct (@runMigrations_session_trace toyCollaborators 7%nat "/migrations"
              {| logger := None |} world_two_files
              (fst (@runMigrations toyCollaborators 7%nat "/migrations"
                      {| logger := None |} world_two_files))
              (snd (@runMigrations toyCollaborators 7%nat "/migrations"
                      {| logger := None |} world_two_files)))
    as (queries & attempted & Htr & _).
  - vm_compute. reflexivity.
  - exists queries, attempted. exact Htr.
Defined.

(** X8, on the directory with a file without ordinal. *)
Lemma load_candidate_rejected_witness :
  ∃ e w', @load toyCollaborators "/migrations" noopLogger 7%nat world_bad_file
          = (inl e, w').
Proof.
  destruct (@load_candidate_rejected toyCollaborators "/migrations" noopLogger
              7%nat world_bad_file ["notes.sql"])
    as (p & e & w' & _ & _ & Hload & _).
  - reflexivity.
  - exists "/migrations/notes.sql". split.
    + vm_compute. left. reflexivity.
    + eexists. vm_compute. reflexivity.
  - exists e, w'. exact Hload.
Defined.

(** X9, on the same directory. *)
Lemma runMigrations_load_failure_witness :
  ∃ w', @runMigrations toyCollaborators 7%nat "/migrations" {| logger := None |}
          world_bad_file
        = (inl (migrationFailed (malformedUnitError "notes.sql")), w')
        ∧ trace w' = [ClientConnect; ClientEnd].
Proof.
  destruct (@runMigrations_load_failure toyCollaborators 7%nat "/migrations"
              {| logger := None |} world_bad_file (malformedUnitError "notes.sql"))
    as (w' & Hrun & _ & Htr & _).
  - reflexivity.
  - vm_compute. reflexivity.
  - exists w'. split; [exact Hrun|exact Htr].
Defined.

(** X10, on a caller's object without a table name. *)
Lemma migrate_uses_one_table_name_witness :
  ∃ queries attempted,
    trace (snd (@migrate toyCollaborators (VObject 7) (VString "/migrations") None
                  world_unnamed))
    = (ClientConnect :: queries
         ++ List.map (RunMigration "migrations") attempted ++ [ClientEnd])%list.
Proof.
  destruct (@migrate_uses_one_table_name toyCollaborators 7%nat callerConfig
              "/migrations" None world_unnamed
              (fst (@migrate toyCollaborators (VObject 7) (VString "/migrations")
                      None world_unnamed))
              (snd (@migrate toyCollaborators (VObject 7) (VString "/migrations")
                      None world_unnamed))
              "migrations")
    as (queries & attempted & Htr & _).
  - reflexivity.
  - exact callerConfig_valid.
  - reflexivity.
  - vm_compute. reflexivity.
  - exists queries, attempted. exact Htr.
Defined.

(** X11, on the loop that fails at its second unit. *)
Lemma applyMigrations_failure_origin_witness :
  ∃ pre u post,
    [unit1; unit_failing; unit3] = (pre ++ u :: post)%list
    ∧ executed (snd (@applyMigrations toyCollaborators 7%nat
                       [unit1; unit_failing; unit3] [] world_after_bootstrap))
      = (pre ++ [u])%list.
Proof.
  destruct (@applyMigrations_failure_origin toyCollaborators 7%nat
              [unit1; unit_failing; unit3] [] world_after_bootstrap
              (migrationApplyError unit_failing (Error "division by zero"))
              (snd (@applyMigrations toyCollaborators 7%nat
                      [unit1; unit_failing; unit3] [] world_after_bootstrap)))
    as (pre & u & post & w1 & results & Hp & _ & _ & _ & Hex).
  - vm_compute. reflexivity.
  - exists pre, u, post. split; [exact Hp|exact Hex].
Defined.


(** X13, on units 1 and 2 listed either way before the bootstrap unit. *)
Lemma sort_by_id_order_independent_witness :
  sort_by Migration.id [unit1; unit2; unit0]
  = sort_by Migration.id [unit2; unit1; unit0].
Proof.
  apply sort_by_id_order_independent.
  - apply perm_swap.
  - apply (bool_decide_unpack _). vm_compute. reflexivity.
Defined.

(** X14, on the table name [Migrations]: the table exists as it is
    spelled, and the reader asks for [migrations]. *)
Lemma fetchAppliedMigrationFromDB_unquoted_name_witness :
  fold_case "Migrations" = "migrations"
  ∧ table_exists (db world_mixed_case) "Migrations" = true
  ∧ ∃ w', fetchAppliedMigrationFromDB "Migrations" noopLogger world_mixed_case
          = (inl (Error ("relation " +:+ dquote +:+ "migrations" +:+ dquote
                         +:+ " does not exist")), w').
Proof.
  destruct (fetchAppliedMigrationFromDB_unquoted_name "Migrations")
    as (_ & _ & Hraises).
  - reflexivity.
  - split_and!; [reflexivity..|].
    destruct (Hraises noopLogger world_mixed_case) as (w' & Hfetch & _);
      [reflexivity..|].
    exists w'. exact Hfetch.
Defined.
